(** * Reachable functions of the oblivious-hashing pass

    A shallow embedding of [src/ReachableFunctions.cpp]: the per-query
    signature index, the depth-first walk over the call graph, the worklist
    that closes the reachable set under indirect calls and callback
    arguments, and the module pass that reports the result for [main]. *)

From Stdlib Require Import Ascii.
From stdpp Require Import gmap strings list fin_maps fin_sets.

Set Warnings "-clear-no-such-hyp".

(** ** Program model *)

(** A [llvm::Function*] and a [llvm::CallGraphNode*] are addresses; only their
    identity matters. *)
Abbreviation Func := nat.
Abbreviation NodeId := nat.

(** Modelled from the spec: [FunctionSet] is declared in
    [ReachableFunctions.h], which is not among the sources.  The spec has it
    as a set of function identities in which a function appears at most once
    and insertion order is irrelevant. *)
Abbreviation FunctionSet := (gset Func).

(** [llvm::FunctionType]: LLVM uniques types, so pointer equality is
    structural equality of return and parameter types. *)
Record FunctionType := MkFunctionType {
  returnType : nat;
  paramTypes : list nat
}.

#[global] Instance FunctionType_eq_dec : EqDecision FunctionType.
Proof. solve_decision. Defined.

#[global] Instance FunctionType_countable : Countable FunctionType.
Proof.
  apply (inj_countable' (fun t => (returnType t, paramTypes t))
                        (fun p => MkFunctionType p.1 p.2)).
  by intros [].
Defined.

(** [llvm::Type] as far as the pass looks at it: a function type or not. *)
Inductive LType :=
  | FunctionTy (ft : FunctionType)
  | OtherTy (code : nat).

(** An argument operand: [dyn_cast<llvm::Function>] succeeds on
    [FunctionRef], any other value only exposes its type. *)
Inductive Value :=
  | FunctionRef (f : Func)
  | OtherValue (ty : LType).

(** What [CallInst] and [InvokeInst] share. *)
Record CallSite := MkCallSite {
  getCalledFunction : option Func;
  getFunctionType : FunctionType;
  argOperands : list Value
}.

Inductive Instruction :=
  | CallInst (cs : CallSite)
  | InvokeInst (cs : CallSite)
  | OtherInst.

Definition BasicBlock := list Instruction.

Record Function := MkFunction {
  getName : string;
  funType : FunctionType;
  blocks : list BasicBlock
}.

(** [llvm::Module]: the functions it owns, by address. *)
Abbreviation Module := (gmap Func Function).

(** [GlobalValue::isDeclaration] on a function: it has no basic block.  An
    address the module does not own has no body either. *)
Definition isDeclaration (M : Module) (f : Func) : bool :=
  match M !! f with
  | Some fn => bool_decide (blocks fn = [])
  | None => true
  end.

Definition body (M : Module) (f : Func) : list BasicBlock :=
  match M !! f with
  | Some fn => blocks fn
  | None => []
  end.

(** [llvm::CallGraphNode]: the function it stands for (null for the external
    nodes) and the callee node of each call record. *)
Record CallGraphNode := MkNode {
  getFunction : option Func;
  calledNodes : list (option NodeId)
}.

(** [llvm::CallGraph]: [operator[]] and the nodes behind the node
    addresses.  [operator[]] is read as null on a function the graph does not
    know, which the walk tests for. *)
Record CallGraph := MkCallGraph {
  cg_index : Func → option NodeId;
  cg_node : NodeId → CallGraphNode
}.

(** The order in which a [FunctionSet] is iterated is not fixed by the
    container: any enumeration of its elements. *)
Class IterationOrder := {
  iterate : FunctionSet → list Func;
  iterate_perm : ∀ s, iterate s ≡ₚ elements s
}.

#[global] Program Instance elements_order : IterationOrder :=
  {| iterate := elements |}.
Next Obligation. done. Qed.

(** ** Helpers of the embedding *)

(** A loop whose body can run out of fuel. *)
Fixpoint foldM {A B} (f : A → B → option A) (l : list B) (a : A) : option A :=
  match l with
  | [] => Some a
  | x :: l' =>
      match f a x with
      | Some a' => foldM f l' a'
      | None => None
      end
  end.

(** Modelled from the spec: [FunctionTypeMap] is declared in
    [ReachableFunctions.h] as well; the spec has it as a mapping from
    signature to set of functions. *)
Abbreviation FunctionTypeMap := (gmap FunctionType FunctionSet).

(** [functionTypes.find(ty)], [end()] read as the empty set. *)
Definition find_type (functionTypes : FunctionTypeMap)
    (ty : FunctionType) : FunctionSet :=
  default ∅ (functionTypes !! ty).

(** The state the loops of the closure update: the working list and the
    reachable set. *)
Abbreviation Work := (list Func * FunctionSet)%type.

Section Reachable.

Context {order : IterationOrder}.
Variable m_callGraph : CallGraph.
Variable m_module : Module.

(** ** [collect_function_types] *)

Definition add_function_type (functionTypes : FunctionTypeMap)
    (entry : Func * Function) : FunctionTypeMap :=
  <[funType entry.2 := {[entry.1]} ∪ find_type functionTypes (funType entry.2)]>
    functionTypes.

Definition collect_function_types : FunctionTypeMap :=
  foldl add_function_type ∅ (map_to_list m_module).

(** ** [collect_reachable_functions] *)

Fixpoint collect_reachable_functions (fuel : nat) (callNode : option NodeId)
    (reachable_functions : FunctionSet) : option FunctionSet :=
  match fuel with
  | 0 => None
  | S fuel' =>
      match callNode with
      | None => Some reachable_functions
      | Some n =>
          match getFunction (cg_node m_callGraph n) with
          | None => Some reachable_functions
          | Some nodeF =>
              if isDeclaration m_module nodeF then Some reachable_functions
              else if decide (nodeF ∈ reachable_functions)
              then Some reachable_functions
              else
                foldM (fun out callee =>
                         collect_reachable_functions fuel' callee out)
                      (calledNodes (cg_node m_callGraph n))
                      ({[nodeF]} ∪ reachable_functions)
          end
      end
  end.

(** ** [get_indirect_called_functions] and [get_functions_from_arguments] *)

Definition get_indirect_called_functions (callInst : CallSite)
    (functionTypes : FunctionTypeMap) : FunctionSet :=
  match getCalledFunction callInst with
  | Some _ => ∅
  | None => find_type functionTypes (getFunctionType callInst)
  end.

Definition argument_functions (functionTypes : FunctionTypeMap)
    (callbacks : FunctionSet) (arg : Value) : FunctionSet :=
  match arg with
  | FunctionRef argF => {[argF]} ∪ callbacks
  | OtherValue (FunctionTy fType) => find_type functionTypes fType ∪ callbacks
  | OtherValue (OtherTy _) => callbacks
  end.

Definition get_functions_from_arguments (callInst : CallSite)
    (functionTypes : FunctionTypeMap) : FunctionSet :=
  foldl (argument_functions functionTypes) ∅ (argOperands callInst).

(** ** [collect_indirectly_called_functions] *)

Definition instruction_functions (functionTypes : FunctionTypeMap)
    (called_functions : FunctionSet) (I : Instruction) : FunctionSet :=
  match I with
  | CallInst callInst | InvokeInst callInst =>
      get_functions_from_arguments callInst functionTypes
        ∪ (get_indirect_called_functions callInst functionTypes
             ∪ called_functions)
  | OtherInst => called_functions
  end.

Definition collect_indirectly_called_functions (F : Func)
    (functionTypes : FunctionTypeMap) : FunctionSet :=
  foldl (fun called B => foldl (instruction_functions functionTypes) called B)
        ∅ (body m_module F).

(** ** [collect_indirectly_reachable_functions] *)

(** Lines 94-96: insert, and queue when the insertion was new. *)
Definition push_if_new (w : Work) (F : Func) : Work :=
  if decide (F ∈ w.2) then w else (w.1 ++ [F], {[F]} ∪ w.2).

(** Lines 87-97: the body of the loop over [indirectly_called]. *)
Definition add_indirect (dfuel : nat) (w : Work) (indirectF : Func)
    : option Work :=
  if decide (indirectF ∈ w.2) then Some w
  else
    match collect_reachable_functions dfuel
            (cg_index m_callGraph indirectF) ∅ with
    | None => None
    | Some reachables =>
        Some (foldl push_if_new (w.1 ++ [indirectF], {[indirectF]} ∪ w.2)
                    (iterate reachables))
    end.

(** Lines 79-99: [fuel] bounds the iterations of the [while], [dfuel] the
    depth of each walk started from it. *)
Fixpoint process_working_list (fuel dfuel : nat)
    (functionTypes : FunctionTypeMap)
    (working_list : list Func) (processed_functions : FunctionSet)
    (reachable_functions : FunctionSet) : option FunctionSet :=
  match fuel with
  | 0 => None
  | S fuel' =>
      match working_list with
      | [] => Some reachable_functions
      | F :: rest =>
          if decide (F ∈ processed_functions)
          then process_working_list fuel' dfuel functionTypes rest
                 processed_functions reachable_functions
          else
            match foldM (add_indirect dfuel)
                    (iterate
                       (collect_indirectly_called_functions F functionTypes))
                    (rest, reachable_functions) with
            | None => None
            | Some w =>
                process_working_list fuel' dfuel functionTypes w.1
                  ({[F]} ∪ processed_functions) w.2
            end
      end
  end.

Definition collect_indirectly_reachable_functions (fuel : nat)
    (reachable_functions : FunctionSet)
    (functionTypes : FunctionTypeMap) : option FunctionSet :=
  process_working_list fuel fuel functionTypes
    (iterate reachable_functions) ∅ reachable_functions.

(** ** [getReachableFunctions] *)

Definition getReachableFunctions (fuel : nat) (F : Func)
    : option FunctionSet :=
  let functionTypes := collect_function_types in
  match collect_reachable_functions fuel (cg_index m_callGraph F) ∅ with
  | None => None
  | Some reachable_functions =>
      collect_indirectly_reachable_functions fuel reachable_functions
        functionTypes
  end.

End Reachable.

(** ** [ReachableFunctionsPass::runOnModule] *)

Definition newline : string := String "010"%char EmptyString.

(** [M.getFunction(name)]: the function of that name, null when there is
    none. *)
Definition getFunctionByName (M : Module) (name : string) : option Func :=
  (fun found => found.2.1)
    <$> list_find (fun entry : Func * Function => getName entry.2 = name)
                  (map_to_list M).

Definition nameOf (M : Module) (f : Func) : string :=
  match M !! f with
  | Some fn => getName fn
  | None => ""
  end.

Section Pass.

Context {order : IterationOrder}.

Definition print_reachable (M : Module) (out : string) (F : Func) : string :=
  out +:+ "+++" +:+ nameOf M F +:+ newline.

Definition print_unreachable (M : Module) (reachable_from_main : FunctionSet)
    (out : string) (entry : Func * Function) : string :=
  if isDeclaration M entry.1 then out
  else if decide (entry.1 ∈ reachable_from_main) then out
  else out +:+ "---" +:+ getName entry.2 +:+ newline.

(** What is written to [llvm::dbgs()] once the query has returned. *)
Definition report (M : Module) (reachable_from_main : FunctionSet) : string :=
  let out := "Function reachable from main are" +:+ newline in
  let out := foldl (print_reachable M) out (iterate reachable_from_main) in
  let out := out +:+ "Non reachable functions" +:+ newline in
  foldl (print_unreachable M reachable_from_main) out (map_to_list M).

(** The text written to [llvm::dbgs()] and the value returned. *)
Definition runOnModule (fuel : nat) (CG : CallGraph) (M : Module)
    : option (string * bool) :=
  match getFunctionByName M "main" with
  | None => Some ("No function main" +:+ newline, false)
  | Some mainF =>
      match getReachableFunctions CG M fuel mainF with
      | None => None
      | Some reachable_from_main => Some (report M reachable_from_main, false)
      end
  end.

End Pass.

(** ** Specification-level notions *)

Section Notions.

Variable m_callGraph : CallGraph.
Variable m_module : Module.

(** The call site of an instruction, if it is a call or an invoke. *)
Definition call_site (I : Instruction) : option CallSite :=
  match I with
  | CallInst cs | InvokeInst cs => Some cs
  | OtherInst => None
  end.

(** [cs] is a call site inside the body of [F]. *)
Definition call_site_of (F : Func) (cs : CallSite) : Prop :=
  ∃ B I, B ∈ body m_module F ∧ I ∈ B ∧ call_site I = Some cs.

(** The functions of the module that have a body. *)
Definition defined_functions : FunctionSet :=
  filter (fun f => isDeclaration m_module f = false) (dom m_module).

(** Every function the query can ever meet: the functions of the module and
    those named by an argument of one of their call sites. *)
Definition universe : FunctionSet :=
  dom m_module
    ∪ ⋃ ((fun F => collect_indirectly_called_functions m_module F
                     (collect_function_types m_module))
           <$> elements (dom m_module)).

Definition node_of (f : Func) (n : NodeId) : Prop :=
  getFunction (cg_node m_callGraph n) = Some f.

(** Node [n] has a call record whose callee node stands for the defined
    function [g]. *)
Definition calls (n : NodeId) (g : Func) : Prop :=
  ∃ c, Some c ∈ calledNodes (cg_node m_callGraph n)
       ∧ node_of g c ∧ isDeclaration m_module g = false.

(** Big-step reading of [collect_reachable_functions]: the walk from a node
    turns the set [out] into [out']. *)
Inductive Walk : option NodeId → FunctionSet → FunctionSet → Prop :=
  | Walk_null out : Walk None out out
  | Walk_external n out :
      getFunction (cg_node m_callGraph n) = None → Walk (Some n) out out
  | Walk_declaration n f out :
      node_of f n → isDeclaration m_module f = true → Walk (Some n) out out
  | Walk_seen n f out :
      node_of f n → isDeclaration m_module f = false → f ∈ out →
      Walk (Some n) out out
  | Walk_enter n f out out' :
      node_of f n → isDeclaration m_module f = false → f ∉ out →
      Walks (calledNodes (cg_node m_callGraph n)) ({[f]} ∪ out) out' →
      Walk (Some n) out out'
with Walks : list (option NodeId) → FunctionSet → FunctionSet → Prop :=
  | Walks_nil out : Walks [] out out
  | Walks_cons c cs out mid out' :
      Walk c out mid → Walks cs mid out' → Walks (c :: cs) out out'.

(** The four ways a branch of the walk ends without inserting. *)
Definition branch_ends (callNode : option NodeId) (out : FunctionSet) : Prop :=
  match callNode with
  | None => True
  | Some n =>
      match getFunction (cg_node m_callGraph n) with
      | None => True
      | Some nodeF => isDeclaration m_module nodeF = true ∨ nodeF ∈ out
      end
  end.

(** [f] is met on a path of call records that starts at the node and only
    passes through nodes of defined functions. *)
Inductive DReach : option NodeId → Func → Prop :=
  | DReach_here n f :
      node_of f n → isDeclaration m_module f = false → DReach (Some n) f
  | DReach_step n f c g :
      node_of f n → isDeclaration m_module f = false →
      c ∈ calledNodes (cg_node m_callGraph n) → DReach c g →
      DReach (Some n) g.

(** The least set the query is meant to compute. *)
Inductive Reach (entry : Func) : Func → Prop :=
  | Reach_entry f : DReach (cg_index m_callGraph entry) f → Reach entry f
  | Reach_indirect F c :
      Reach entry F →
      c ∈ collect_indirectly_called_functions m_module F
            (collect_function_types m_module) →
      Reach entry c
  | Reach_direct c f :
      Reach entry c → DReach (cg_index m_callGraph c) f → Reach entry f.

(** What [llvm::CallGraph] guarantees of the graph it builds for a module:
    [operator[]] and [getFunction] are inverse, every defined function has
    its node, and every call site with a known defined callee has its call
    record. *)
Record callgraph_of_module : Prop := {
  cg_index_node : ∀ f n, cg_index m_callGraph f = Some n → node_of f n;
  cg_node_index : ∀ f n, node_of f n → cg_index m_callGraph f = Some n;
  cg_defined : ∀ f, isDeclaration m_module f = false →
                    is_Some (cg_index m_callGraph f);
  cg_call_records : ∀ F cs C n,
      call_site_of F cs → getCalledFunction cs = Some C →
      isDeclaration m_module C = false →
      cg_index m_callGraph F = Some n → calls n C
}.

(** A set is closed under the call records of its defined members. *)
Definition direct_closed (r : FunctionSet) : Prop :=
  ∀ f, f ∈ r → isDeclaration m_module f = false →
       ∃ n, node_of f n ∧ ∀ g, calls n g → g ∈ r.

End Notions.

(** One or more insert-and-queue steps lead from [w] to [w']: the working
    list gained, once each, exactly the functions the reachable set gained. *)
Definition grows (w w' : Work) : Prop :=
  w.2 ⊆ w'.2
  ∧ ∃ new, w'.1 = w.1 ++ new ∧ NoDup new ∧ ∀ x, x ∈ new ↔ x ∈ w'.2 ∧ x ∉ w.2.

Scheme Walk_mut := Minimality for Walk Sort Prop
  with Walks_mut := Minimality for Walks Sort Prop.
Combined Scheme Walk_Walks_ind from Walk_mut, Walks_mut.

(** The closure property in its unrestricted form: every statically known
    callee of a call site of a member is a member. *)
Definition closed_under_direct_calls (M : Module) (r : FunctionSet) : Prop :=
  ∀ F cs C, F ∈ r → call_site_of M F cs → getCalledFunction cs = Some C →
            C ∈ r.

(** ** A sample program

    [main] calls [helper] and the declared [puts], and makes a call through
    a pointer of type [int (int)]; [helper] calls [main] back; [inc] and the
    declared [abs] have type [int (int)]; [orphan] only calls itself. *)

Definition void_void : FunctionType := MkFunctionType 0 [].
Definition int_int : FunctionType := MkFunctionType 1 [1].
Definition int_ptr : FunctionType := MkFunctionType 1 [2].

Definition direct_call (callee : Func) (ty : FunctionType) : Instruction :=
  CallInst (MkCallSite (Some callee) ty []).
Definition pointer_call (ty : FunctionType) : Instruction :=
  CallInst (MkCallSite None ty [OtherValue (OtherTy 1)]).

Definition sample_module : Module :=
  list_to_map
    [ (1, MkFunction "main" void_void
            [[direct_call 2 void_void; pointer_call int_int;
              direct_call 5 int_ptr; OtherInst]]);
      (2, MkFunction "helper" void_void [[direct_call 1 void_void]]);
      (3, MkFunction "inc" int_int [[OtherInst]]);
      (4, MkFunction "abs" int_int []);
      (5, MkFunction "puts" int_ptr []);
      (6, MkFunction "orphan" void_void [[direct_call 6 void_void]]) ].

(** The call graph LLVM builds for it; node [0] is the node that stands for
    the unknown callee of the call through a pointer. *)
Definition sample_callgraph : CallGraph :=
  {| cg_index f :=
       match f with
       | 1 | 2 | 3 | 4 | 5 | 6 => Some f
       | _ => None
       end;
     cg_node n :=
       match n with
       | 1 => MkNode (Some 1) [Some 2; Some 0; Some 5]
       | 2 => MkNode (Some 2) [Some 1]
       | 3 => MkNode (Some 3) []
       | 4 => MkNode (Some 4) []
       | 5 => MkNode (Some 5) []
       | 6 => MkNode (Some 6) [Some 6]
       | _ => MkNode None []
       end |}.

(** The same program without [main]. *)
Definition library_module : Module := delete 1 sample_module.

(** ** A program with callbacks

    [main] hands [onEvent] and the declared [abort] to [register];
    [onEvent] calls [log]; nothing calls [unused]. *)

Definition callback_ty : FunctionType := MkFunctionType 0 [3].

Definition register_call (callback : Func) : Instruction :=
  CallInst (MkCallSite (Some 2) callback_ty [FunctionRef callback]).

Definition callback_module : Module :=
  list_to_map
    [ (1, MkFunction "main" void_void [[register_call 3; register_call 5]]);
      (2, MkFunction "register" callback_ty [[OtherInst]]);
      (3, MkFunction "onEvent" void_void [[direct_call 4 void_void]]);
      (4, MkFunction "log" void_void [[OtherInst]]);
      (5, MkFunction "abort" void_void []);
      (6, MkFunction "unused" void_void [[OtherInst]]) ].

Definition callback_callgraph : CallGraph :=
  {| cg_index f :=
       match f with
       | 1 | 2 | 3 | 4 | 5 | 6 => Some f
       | _ => None
       end;
     cg_node n :=
       match n with
       | 1 => MkNode (Some 1) [Some 2; Some 2]
       | 2 => MkNode (Some 2) []
       | 3 => MkNode (Some 3) [Some 4]
       | 4 => MkNode (Some 4) []
       | 5 => MkNode (Some 5) []
       | 6 => MkNode (Some 6) []
       | _ => MkNode None []
       end |}.

(** * Properties *)

(** ** Loops with fuel *)

Lemma foldM_inv {A B} (P : A → Prop) (f : A → B → option A) l :
  (∀ a x a', x ∈ l → P a → f a x = Some a' → P a') →
  ∀ a b, P a → foldM f l a = Some b → P b.
Proof.
  induction l as [|x l IH]; simpl; intros Hstep a b Ha Hrun.
  - by simplify_eq.
  - destruct (f a x) as [a'|] eqn:Hfa; [|done].
    apply (IH (fun a0 y a1 Hy => Hstep a0 y a1 (list_elem_of_further _ _ _ Hy)) a');
      [|done].
    eapply Hstep; [|done..]. left.
Qed.

Lemma foldM_total {A B} (P : A → Prop) (f : A → B → option A) l :
  (∀ a x, x ∈ l → P a → ∃ a', f a x = Some a' ∧ P a') →
  ∀ a, P a → ∃ b, foldM f l a = Some b ∧ P b.
Proof.
  induction l as [|x l IH]; simpl; intros Hstep a Ha.
  - eauto.
  - destruct (Hstep a x) as (a' & -> & Ha'); [left|done|].
    apply IH; [|done]. intros a0 y Hy. apply Hstep. by right.
Qed.

(** ** The signature index *)

Section Index.

Variable m_module : Module.

Lemma find_type_add functionTypes entry ty f :
  f ∈ find_type (add_function_type functionTypes entry) ty
  ↔ f ∈ find_type functionTypes ty ∨ (f = entry.1 ∧ funType entry.2 = ty).
Proof.
  unfold add_function_type, find_type.
  destruct (decide (funType entry.2 = ty)) as [->|Hne].
  - rewrite lookup_insert_eq. simpl. set_solver.
  - rewrite lookup_insert_ne by done. naive_solver.
Qed.

Lemma find_type_foldl l functionTypes ty f :
  f ∈ find_type (foldl add_function_type functionTypes l) ty
  ↔ f ∈ find_type functionTypes ty
    ∨ ∃ fn, (f, fn) ∈ l ∧ funType fn = ty.
Proof.
  revert functionTypes.
  induction l as [|[g gn] l IH]; intros functionTypes; simpl.
  - split; [by left|]. intros [?|(fn & Hin & _)]; [done|].
    by apply elem_of_nil in Hin.
  - rewrite IH, find_type_add. simpl. split.
    + intros [[?|[-> <-]]|(fn & Hin & Hty)]; [by left|right..].
      * exists gn. split; [left|done].
      * exists fn. split; [by right|done].
    + intros [?|(fn & Hin & Hty)]; [by left; left|].
      apply elem_of_cons in Hin as [Heq|Hin].
      * simplify_eq. left. by right.
      * right. by exists fn.
Qed.

(** The index holds, under each signature, every function of the module with
    that signature, whether it has a body or not. *)
Lemma collect_function_types_spec ty f :
  f ∈ find_type (collect_function_types m_module) ty
  ↔ ∃ fn, m_module !! f = Some fn ∧ funType fn = ty.
Proof.
  unfold collect_function_types. rewrite find_type_foldl.
  unfold find_type at 1. rewrite lookup_empty. simpl. split.
  - intros [Hin|(fn & Hin & Hty)]; [set_solver|].
    exists fn. by apply elem_of_map_to_list in Hin.
  - intros (fn & Hin & Hty). right. exists fn.
    by rewrite elem_of_map_to_list.
Qed.

End Index.

(** ** The walk over the call graph *)

Section Direct.

Variable m_callGraph : CallGraph.
Variable m_module : Module.

Local Abbreviation collect :=
  (collect_reachable_functions m_callGraph m_module).
Local Abbreviation walk := (Walk m_callGraph m_module).
Local Abbreviation walks := (Walks m_callGraph m_module).
Local Abbreviation node := (node_of m_callGraph).
Local Abbreviation edge := (calls m_callGraph m_module).
Local Abbreviation dreach := (DReach m_callGraph m_module).
Local Abbreviation isDecl := (isDeclaration m_module).

Lemma collect_Walk fuel :
  ∀ callNode out out', collect fuel callNode out = Some out' →
                       walk callNode out out'.
Proof.
  induction fuel as [|fuel IH]; intros callNode out out'; simpl; [done|].
  destruct callNode as [n|]; [|intros [= <-]; constructor].
  destruct (getFunction (cg_node m_callGraph n)) as [f|] eqn:Hf;
    [|intros [= <-]; by constructor].
  destruct (isDecl f) eqn:Hdecl; [intros [= <-]; by eapply Walk_declaration|].
  case_decide as Hin; [intros [= <-]; by eapply Walk_seen|].
  intros Hrun. eapply Walk_enter; [done..|].
  revert Hrun. generalize ({[f]} ∪ out).
  induction (calledNodes (cg_node m_callGraph n)) as [|c cs IHcs];
    simpl; intros acc Hrun.
  - simplify_eq. constructor.
  - destruct (collect fuel c acc) as [mid|] eqn:Hc; [|done].
    econstructor; [by apply IH|by apply IHcs].
Qed.

Lemma Walk_deterministic :
  (∀ c out out', walk c out out' → ∀ out2, walk c out out2 → out' = out2)
  ∧ (∀ cs out out', walks cs out out' →
       ∀ out2, walks cs out out2 → out' = out2).
Proof.
  apply Walk_Walks_ind; unfold node_of.
  - intros out out2 H2. by inversion H2.
  - intros n out Hf out2 H2.
    inversion H2; subst; unfold node_of in *; congruence.
  - intros n f out Hf Hd out2 H2.
    inversion H2; subst; unfold node_of in *; congruence.
  - intros n f out Hf Hd Hin out2 H2.
    inversion H2; subst; unfold node_of in *; congruence.
  - intros n f out out' Hf Hd Hin _ IH out2 H2.
    inversion H2; subst; unfold node_of in *; try congruence.
    apply IH. congruence.
  - intros out out2 H2. by inversion H2.
  - intros c cs out mid out' _ IHc _ IHcs out2 H2.
    inversion H2 as [|? ? ? mid2 ? Hc2 Hcs2]; subst.
    apply IHcs. by rewrite (IHc _ Hc2).
Qed.

Lemma Walk_mono :
  (∀ c out out', walk c out out' → out ⊆ out')
  ∧ (∀ cs out out', walks cs out out' → out ⊆ out').
Proof. apply Walk_Walks_ind; set_solver. Qed.

(** The walk only ever inserts functions that have a body. *)
Lemma Walk_defined :
  (∀ c out out', walk c out out' →
     ∀ f, f ∈ out' → f ∈ out ∨ isDecl f = false)
  ∧ (∀ cs out out', walks cs out out' →
       ∀ f, f ∈ out' → f ∈ out ∨ isDecl f = false).
Proof.
  apply Walk_Walks_ind; try by auto.
  - intros n f out out' Hf Hd Hin _ IH g Hg.
    destruct (IH g Hg) as [Hg'|?]; [|by right].
    apply elem_of_union in Hg' as [->%elem_of_singleton|?]; auto.
  - intros c cs out mid out' _ IHc _ IHcs g Hg.
    destruct (IHcs g Hg); auto.
Qed.

Lemma isDeclaration_false_dom f : isDecl f = false → f ∈ dom m_module.
Proof.
  unfold isDeclaration. intros Hd. apply elem_of_dom.
  destruct (m_module !! f); [eauto|done].
Qed.

Lemma defined_functions_spec f :
  f ∈ defined_functions m_module ↔ isDecl f = false.
Proof.
  unfold defined_functions. rewrite elem_of_filter.
  split; [by intros []|]. intros Hd. split; [done|].
  by apply isDeclaration_false_dom.
Qed.

Lemma Walk_subseteq c out out' :
  walk c out out' → out' ⊆ out ∪ defined_functions m_module.
Proof.
  intros Hw f Hf. apply elem_of_union.
  destruct (proj1 Walk_defined _ _ _ Hw f Hf); [by left|right].
  by apply defined_functions_spec.
Qed.

(** The function of the node the walk starts from is in the set afterwards,
    when it has a body. *)
Lemma Walk_start n f out out' :
  walk (Some n) out out' → node f n → isDecl f = false → f ∈ out'.
Proof.
  unfold node_of. intros Hw Hf Hd.
  inversion Hw as [|? ? Hx|? g ? Hg Hgd|? g ? Hg Hgd Hin|? g ? ? Hg Hgd Hin Hws];
    subst; unfold node_of in *; try congruence.
  apply (proj2 Walk_mono) in Hws. replace f with g by congruence. set_solver.
Qed.

(** Every function the walk inserts has a node all of whose callees with a
    body are in the set afterwards. *)
Lemma Walk_closed :
  (∀ c out out', walk c out out' →
     ∀ f, f ∈ out' → f ∈ out ∨ ∃ n, node f n ∧ ∀ g, edge n g → g ∈ out')
  ∧ (∀ cs out out', walks cs out out' →
       (∀ c g, Some c ∈ cs → node g c → isDecl g = false → g ∈ out')
       ∧ ∀ f, f ∈ out' →
              f ∈ out ∨ ∃ n, node f n ∧ ∀ g, edge n g → g ∈ out').
Proof.
  apply Walk_Walks_ind; try by auto.
  - intros n f out out' Hf Hd Hin Hws [IHv IHc] g Hg.
    destruct (IHc g Hg) as [Hg'|?]; [|by right].
    apply elem_of_union in Hg' as [->%elem_of_singleton|?]; [|by left].
    right. exists n. split; [done|].
    intros h (c & Hc & Hh & Hhd). by eapply IHv.
  - intros out. split; [|by auto].
    intros c g Hc. by apply elem_of_nil in Hc.
  - intros c cs out mid out' Hw IHc Hws [IHv IHcs].
    pose proof (proj2 Walk_mono _ _ _ Hws) as Hmono. split.
    + intros c' g Hc' Hg Hgd.
      apply elem_of_cons in Hc' as [<-|Hc']; [|by eapply IHv].
      apply Hmono. by eapply Walk_start.
    + intros f Hf. destruct (IHcs f Hf) as [Hmid|?]; [|by right].
      destruct (IHc f Hmid) as [?|(n & Hn & Hcl)]; [by left|right].
      exists n. split; [done|]. intros g Hg. apply Hmono. by apply Hcl.
Qed.

(** Everything the walk inserts lies on a path of call records from the
    node it started at. *)
Lemma Walk_sound :
  (∀ c out out', walk c out out' → ∀ f, f ∈ out' → f ∈ out ∨ dreach c f)
  ∧ (∀ cs out out', walks cs out out' →
       ∀ f, f ∈ out' → f ∈ out ∨ ∃ c, c ∈ cs ∧ dreach c f).
Proof.
  apply Walk_Walks_ind; try by auto.
  - intros n f out out' Hf Hd Hin _ IH g Hg.
    destruct (IH g Hg) as [Hg'|(c & Hc & Hr)].
    + apply elem_of_union in Hg' as [->%elem_of_singleton|?]; [|by left].
      right. by constructor.
    + right. by eapply DReach_step.
  - intros c cs out mid out' _ IHc _ IHcs f Hf.
    destruct (IHcs f Hf) as [Hmid|(c' & Hc' & Hr)].
    + destruct (IHc f Hmid) as [?|Hr]; [by left|right].
      exists c. split; [left|done].
    + right. exists c'. split; [by right|done].
Qed.

(** The visited set is what bounds the recursion: a walk never nests deeper
    than the number of defined functions it has not inserted yet. *)
Lemma collect_terminates fuel :
  ∀ callNode out,
    size (defined_functions m_module ∖ out) < fuel →
    is_Some (collect fuel callNode out).
Proof.
  induction fuel as [|fuel IH]; intros callNode out Hfuel; [lia|]. simpl.
  destruct callNode as [n|]; [|done].
  destruct (getFunction (cg_node m_callGraph n)) as [f|] eqn:Hf; [|done].
  destruct (isDecl f) eqn:Hd; [done|].
  case_decide as Hin; [done|].
  assert (size (defined_functions m_module ∖ ({[f]} ∪ out)) < fuel) as Hlt.
  { assert (defined_functions m_module ∖ ({[f]} ∪ out)
              ⊂ defined_functions m_module ∖ out) as Hsub.
    { apply defined_functions_spec in Hd. set_solver. }
    apply subset_size in Hsub. lia. }
  destruct (foldM_total (fun acc => {[f]} ∪ out ⊆ acc)
              (fun acc callee => collect fuel callee acc)
              (calledNodes (cg_node m_callGraph n))) with (a := {[f]} ∪ out)
    as (res & -> & _); [|done|done].
  intros acc c _ Hacc.
  destruct (IH c acc) as [acc' Hacc'].
  { eapply Nat.le_lt_trans; [|exact Hlt].
    apply subseteq_size. set_solver. }
  exists acc'. split; [done|].
  apply collect_Walk, (proj1 Walk_mono) in Hacc'. set_solver.
Qed.

Lemma Walk_collect fuel callNode out out' :
  walk callNode out out' →
  size (defined_functions m_module ∖ out) < fuel →
  collect fuel callNode out = Some out'.
Proof.
  intros Hw Hfuel.
  destruct (collect_terminates fuel callNode out Hfuel) as [res Hres].
  rewrite Hres. f_equal.
  apply collect_Walk in Hres. by apply (proj1 Walk_deterministic _ _ _ Hres).
Qed.

End Direct.

(** ** The working list *)

Lemma grows_refl w : grows w w.
Proof.
  split; [done|]. exists []. rewrite app_nil_r.
  split; [done|]. split; [constructor|]. intros x. split.
  - by intros ?%elem_of_nil.
  - by intros [].
Qed.

Lemma grows_trans w1 w2 w3 : grows w1 w2 → grows w2 w3 → grows w1 w3.
Proof.
  intros [Hsub1 (new1 & Hl1 & Hnd1 & Hnew1)] [Hsub2 (new2 & Hl2 & Hnd2 & Hnew2)].
  split; [set_solver|]. exists (new1 ++ new2).
  split; [by rewrite Hl2, Hl1, app_assoc|]. split.
  - apply NoDup_app. split; [done|]. split; [|done].
    intros x Hx1 Hx2. apply Hnew1 in Hx1. apply Hnew2 in Hx2. tauto.
  - intros x. rewrite elem_of_app, Hnew1, Hnew2.
    destruct (decide (x ∈ w2.2)); set_solver.
Qed.

Lemma push_if_new_grows w F : grows w (push_if_new w F).
Proof.
  unfold push_if_new. case_decide as Hin; [apply grows_refl|].
  split; simpl; [set_solver|]. exists [F].
  split; [done|]. split; [apply NoDup_singleton|].
  intros x. rewrite list_elem_of_singleton. set_solver.
Qed.

Lemma push_if_new_reachable w F : (push_if_new w F).2 = {[F]} ∪ w.2.
Proof. unfold push_if_new. case_decide; simpl; set_solver. Qed.

Lemma foldl_push_if_new l :
  ∀ w, grows w (foldl push_if_new w l)
       ∧ (foldl push_if_new w l).2 = list_to_set l ∪ w.2.
Proof.
  induction l as [|F l IH]; intros w; simpl.
  - split; [apply grows_refl|set_solver].
  - destruct (IH (push_if_new w F)) as [Hg Heq]. split.
    + eapply grows_trans; [apply push_if_new_grows|done].
    + rewrite Heq, push_if_new_reachable. set_solver.
Qed.

(** What the measure of the loop gains in the queue it loses in the
    functions still outside the reachable set. *)
Lemma grows_measure (U : FunctionSet) w w' :
  grows w w' → w'.2 ⊆ U →
  length w'.1 + size (U ∖ w'.2) = length w.1 + size (U ∖ w.2).
Proof.
  intros [Hsub (new & Hl & Hnd & Hnew)] HU.
  rewrite Hl, length_app.
  assert (length new = size (w'.2 ∖ w.2)) as ->.
  { replace (w'.2 ∖ w.2) with (list_to_set (C := FunctionSet) new).
    - by rewrite size_list_to_set.
    - apply set_eq. intros x. rewrite elem_of_list_to_set, Hnew. set_solver. }
  replace (U ∖ w.2) with ((w'.2 ∖ w.2) ∪ (U ∖ w'.2)).
  - rewrite (size_union (w'.2 ∖ w.2) (U ∖ w'.2)); [lia|set_solver].
  - apply set_eq. intros x. destruct (decide (x ∈ w'.2)); set_solver.
Qed.

(** ** Indirectly called functions of a body *)

Section Called.

Variable m_module : Module.
Variable functionTypes : FunctionTypeMap.

Lemma argument_functions_acc callbacks arg x :
  x ∈ argument_functions functionTypes callbacks arg
  ↔ x ∈ callbacks ∨ x ∈ argument_functions functionTypes ∅ arg.
Proof. destruct arg as [f|[ft|k]]; simpl; set_solver. Qed.

Lemma get_functions_from_arguments_spec callInst x :
  x ∈ get_functions_from_arguments callInst functionTypes
  ↔ ∃ arg, arg ∈ argOperands callInst
           ∧ x ∈ argument_functions functionTypes ∅ arg.
Proof.
  unfold get_functions_from_arguments.
  assert (∀ args acc,
    x ∈ foldl (argument_functions functionTypes) acc args
    ↔ x ∈ acc ∨ ∃ arg, arg ∈ args
                       ∧ x ∈ argument_functions functionTypes ∅ arg) as Hgen.
  { induction args as [|a args IH]; intros acc; simpl.
    - split; [by left|]. intros [?|(arg & Hin & _)]; [done|].
      by apply elem_of_nil in Hin.
    - rewrite IH, argument_functions_acc. split.
      + intros [[?|?]|(arg & Hin & Hx)]; [by left|right..].
        * exists a. split; [left|done].
        * exists arg. split; [by right|done].
      + intros [?|(arg & Hin & Hx)]; [by left; left|].
        apply elem_of_cons in Hin as [->|Hin]; [left; by right|].
        right. by exists arg. }
  rewrite Hgen. set_solver.
Qed.

Lemma instruction_functions_spec called I x :
  x ∈ instruction_functions functionTypes called I
  ↔ x ∈ called
    ∨ ∃ cs, call_site I = Some cs
            ∧ (x ∈ get_indirect_called_functions cs functionTypes
               ∨ x ∈ get_functions_from_arguments cs functionTypes).
Proof.
  destruct I as [cs|cs|]; simpl.
  - rewrite !elem_of_union. split; [|naive_solver].
    intros [?|[?|?]]; [right|right|by left]; exists cs; auto.
  - rewrite !elem_of_union. split; [|naive_solver].
    intros [?|[?|?]]; [right|right|by left]; exists cs; auto.
  - split; [by left|]. by intros [?|(cs & ? & _)].
Qed.

Lemma collect_indirectly_called_functions_spec F x :
  x ∈ collect_indirectly_called_functions m_module F functionTypes
  ↔ ∃ cs, call_site_of m_module F cs
          ∧ (x ∈ get_indirect_called_functions cs functionTypes
             ∨ x ∈ get_functions_from_arguments cs functionTypes).
Proof.
  unfold collect_indirectly_called_functions, call_site_of.
  set (contributes I := ∃ cs, call_site I = Some cs
          ∧ (x ∈ get_indirect_called_functions cs functionTypes
             ∨ x ∈ get_functions_from_arguments cs functionTypes)).
  assert (∀ B acc,
    x ∈ foldl (instruction_functions functionTypes) acc B
    ↔ x ∈ acc ∨ ∃ I, I ∈ B ∧ contributes I) as Hblock.
  { induction B as [|I B IH]; intros acc; simpl.
    - split; [by left|]. intros [?|(I & Hin & _)]; [done|].
      by apply elem_of_nil in Hin.
    - rewrite IH, instruction_functions_spec. fold (contributes I). split.
      + intros [[?|?]|(J & Hin & HJ)]; [by left|right..].
        * exists I. split; [left|done].
        * exists J. split; [by right|done].
      + intros [?|(J & Hin & HJ)]; [by left; left|].
        apply elem_of_cons in Hin as [->|Hin]; [left; by right|].
        right. by exists J. }
  assert (∀ Bs acc,
    x ∈ foldl (fun called B =>
                 foldl (instruction_functions functionTypes) called B) acc Bs
    ↔ x ∈ acc ∨ ∃ B I, B ∈ Bs ∧ I ∈ B ∧ contributes I) as Hbody.
  { induction Bs as [|B Bs IH]; intros acc; simpl.
    - split; [by left|]. intros [?|(B & I & Hin & _)]; [done|].
      by apply elem_of_nil in Hin.
    - rewrite IH, Hblock. split.
      + intros [[?|(I & Hin & HI)]|(B' & I & HB' & Hin & HI)];
          [by left|right..].
        * exists B, I. split; [left|done].
        * exists B', I. split; [by right|done].
      + intros [?|(B' & I & HB' & Hin & HI)]; [by left; left|].
        apply elem_of_cons in HB' as [->|HB']; [left; right; by exists I|].
        right. by exists B', I. }
  rewrite Hbody. unfold contributes. split.
  - intros [?|(B & I & HB & HI & cs & Hcs & Hx)]; [set_solver|].
    exists cs. split; [|done]. by exists B, I.
  - intros (cs & (B & I & HB & HI & Hcs) & Hx). right.
    exists B, I. split; [done|]. split; [done|]. by exists cs.
Qed.

Lemma collect_indirectly_called_functions_outside F :
  F ∉ dom m_module →
  collect_indirectly_called_functions m_module F functionTypes = ∅.
Proof.
  intros HF%not_elem_of_dom.
  unfold collect_indirectly_called_functions, body. by rewrite HF.
Qed.

End Called.

Lemma indirectly_called_universe (m_module : Module) F :
  collect_indirectly_called_functions m_module F
    (collect_function_types m_module) ⊆ universe m_module.
Proof.
  unfold universe. destruct (decide (F ∈ dom m_module)) as [HF|HF].
  - intros x Hx. apply elem_of_union. right. apply elem_of_union_list.
    eexists. split; [|exact Hx].
    apply list_elem_of_fmap. exists F. split; [done|].
    by apply elem_of_elements.
  - rewrite collect_indirectly_called_functions_outside by done. set_solver.
Qed.

Lemma defined_functions_universe (m_module : Module) :
  defined_functions m_module ⊆ universe m_module.
Proof.
  unfold universe, defined_functions. intros x Hx.
  apply elem_of_filter in Hx as [_ Hx]. set_solver.
Qed.

(** ** The closure loop *)

Section Closure.

Context {order : IterationOrder}.
Variable m_callGraph : CallGraph.
Variable m_module : Module.

Local Abbreviation walk := (Walk m_callGraph m_module).
Local Abbreviation index := (collect_function_types m_module).
Local Abbreviation called F :=
  (collect_indirectly_called_functions m_module F
     (collect_function_types m_module)).
Local Abbreviation step := (add_indirect m_callGraph m_module).
Local Abbreviation loop := (process_working_list m_callGraph m_module).

Lemma elem_of_iterate x (s : FunctionSet) : x ∈ iterate s ↔ x ∈ s.
Proof. rewrite (iterate_perm s). apply elem_of_elements. Qed.

Lemma list_to_set_iterate (s : FunctionSet) : list_to_set (iterate s) = s.
Proof.
  apply set_eq. intros x. by rewrite elem_of_list_to_set, elem_of_iterate.
Qed.

Lemma add_indirect_spec dfuel w c w' :
  step dfuel w c = Some w' →
  grows w w'
  ∧ ((c ∈ w.2 ∧ w'.2 = w.2)
     ∨ ((c ∉ w.2) ∧ ∃ rs, walk (cg_index m_callGraph c) ∅ rs
                          ∧ w'.2 = {[c]} ∪ rs ∪ w.2)).
Proof.
  unfold add_indirect. case_decide as Hin.
  - intros [= <-]. split; [apply grows_refl|by left].
  - destruct (collect_reachable_functions _ _ _ _ _) as [rs|] eqn:Hrs;
      [|done].
    intros [= <-].
    destruct (foldl_push_if_new (iterate rs) (w.1 ++ [c], {[c]} ∪ w.2))
      as [Hg Heq].
    split.
    + eapply grows_trans; [|exact Hg].
      pose proof (push_if_new_grows w c) as Hpush.
      unfold push_if_new in Hpush. by rewrite decide_False in Hpush.
    + right. split; [done|]. exists rs. split; [by eapply collect_Walk|].
      rewrite Heq, list_to_set_iterate. simpl. set_solver.
Qed.

Lemma inner_grows dfuel l w w' : foldM (step dfuel) l w = Some w' → grows w w'.
Proof.
  apply (foldM_inv (grows w)); [|apply grows_refl].
  intros a c a' _ Ha Hstep. eapply grows_trans; [done|].
  by apply add_indirect_spec in Hstep as [? _].
Qed.

Lemma inner_inserted dfuel l :
  ∀ w w', foldM (step dfuel) l w = Some w' → ∀ c, c ∈ l → c ∈ w'.2.
Proof.
  induction l as [|a l IH]; intros w w' Hrun c Hc.
  - by apply elem_of_nil in Hc.
  - simpl in Hrun. destruct (step dfuel w a) as [w1|] eqn:Hstep; [|done].
    apply elem_of_cons in Hc as [->|Hc]; [|by eapply IH].
    apply inner_grows in Hrun as [Hsub _]. apply Hsub.
    apply add_indirect_spec in Hstep as [_ [[? ->]|[_ (rs & _ & ->)]]];
      set_solver.
Qed.

Lemma inner_inv (P : FunctionSet → Prop) dfuel l w w' :
  foldM (step dfuel) l w = Some w' →
  P w.2 →
  (∀ r c rs, P r → c ∈ l → c ∉ r → walk (cg_index m_callGraph c) ∅ rs →
             P ({[c]} ∪ rs ∪ r)) →
  P w'.2.
Proof.
  intros Hrun Hw Hstep. revert Hrun.
  apply (foldM_inv (fun a => P a.2)); [|done].
  intros a c a' Hc Ha Ha'.
  apply add_indirect_spec in Ha' as [_ [[_ ->]|[Hnew (rs & Hrs & ->)]]];
    [done|by apply Hstep].
Qed.

Lemma inner_total dfuel l w :
  size (defined_functions m_module) < dfuel →
  is_Some (foldM (step dfuel) l w).
Proof.
  intros Hfuel.
  destruct (foldM_total (fun _ => True) (step dfuel) l) with (a := w)
    as (w' & Hw' & _); [|done|by eexists].
  intros a c _ _. unfold add_indirect. case_decide; [by eexists|].
  destruct (collect_terminates m_callGraph m_module dfuel
              (cg_index m_callGraph c) ∅) as [rs ->]; [|by eexists].
  by rewrite difference_empty_L.
Qed.

(** An invariant of the [while] loop holds of the set it returns. *)
Lemma process_working_list_inv
    (I : list Func → FunctionSet → FunctionSet → Prop) dfuel ft :
  (∀ F rest p r, I (F :: rest) p r → F ∈ p → I rest p r) →
  (∀ F rest p r w,
      I (F :: rest) p r → F ∉ p →
      foldM (step dfuel)
        (iterate (collect_indirectly_called_functions m_module F ft))
        (rest, r) = Some w →
      I w.1 ({[F]} ∪ p) w.2) →
  ∀ fuel wl p r res,
    I wl p r → loop fuel dfuel ft wl p r = Some res → ∃ p', I [] p' res.
Proof.
  intros Hskip Hscan. induction fuel as [|fuel IH]; intros wl p r res HI;
    simpl; [done|].
  destruct wl as [|F rest]; [intros [= <-]; by exists p|].
  case_decide as HF.
  { apply IH. by eapply Hskip. }
  destruct (foldM _ _ _) as [w|] eqn:Hw; [|done].
  apply IH. by eapply Hscan.
Qed.

(** Each turn of the loop lowers the length of the queue plus the number of
    functions not yet reachable by one, so the loop ends. *)
Lemma process_working_list_terminates dfuel (U : FunctionSet) :
  universe m_module ⊆ U →
  size (defined_functions m_module) < dfuel →
  ∀ fuel wl p r,
    r ⊆ U →
    length wl + size (U ∖ r) < fuel →
    is_Some (loop fuel dfuel index wl p r).
Proof.
  intros HU Hdfuel. induction fuel as [|fuel IH]; intros wl p r Hr Hfuel;
    [lia|]. simpl.
  destruct wl as [|F rest]; [done|]. simpl in Hfuel.
  case_decide as HF; [apply IH; [done|lia]|].
  destruct (inner_total dfuel (iterate (called F)) (rest, r) Hdfuel)
    as [w Hw].
  rewrite Hw.
  assert (w.2 ⊆ U) as Hw2.
  { apply (inner_inv (fun s => s ⊆ U) _ _ _ _ Hw); [done|].
    intros r' c rs Hr' Hc%elem_of_iterate _ Hrs.
    apply indirectly_called_universe in Hc.
    apply Walk_subseteq in Hrs.
    pose proof (defined_functions_universe m_module). set_solver. }
  apply IH; [done|].
  rewrite (grows_measure _ (rest, r) w); [simpl; lia| |done].
  by eapply inner_grows.
Qed.

(** The loop only adds to the reachable set. *)
Lemma process_working_list_mono fuel dfuel ft wl p r res :
  loop fuel dfuel ft wl p r = Some res → r ⊆ res.
Proof.
  intros Hrun.
  destruct (process_working_list_inv (fun _ _ s => r ⊆ s) dfuel ft)
    with (fuel := fuel) (wl := wl) (p := p) (r := r) (res := res)
    as [_ ?]; try done.
  intros F rest p0 r0 w Hr0 _ [Hsub _]%inner_grows. set_solver.
Qed.

(** The loop stays within any set that holds the universe of the module
    and the set it starts from. *)
Lemma process_working_list_bounded (U : FunctionSet) fuel dfuel wl p r res :
  universe m_module ⊆ U → r ⊆ U →
  loop fuel dfuel index wl p r = Some res → res ⊆ U.
Proof.
  intros HU Hr Hrun.
  destruct (process_working_list_inv (fun _ _ s => s ⊆ U) dfuel index)
    with (fuel := fuel) (wl := wl) (p := p) (r := r) (res := res)
    as [_ ?]; try done.
  intros F rest p0 r0 w Hr0 _ Hw.
  apply (inner_inv (fun s => s ⊆ U) _ _ _ _ Hw); [done|].
  intros r' c rs Hr' Hc%elem_of_iterate _ Hrs.
  apply indirectly_called_universe in Hc.
  apply Walk_subseteq in Hrs.
  pose proof (defined_functions_universe m_module). set_solver.
Qed.

(** When the queue is empty, every reachable function has been scanned, and
    what it calls indirectly is reachable. *)
Lemma process_working_list_scanned fuel dfuel ft wl p r res :
  (∀ x, x ∈ r → x ∈ p ∨ x ∈ wl) →
  (∀ F, F ∈ p → collect_indirectly_called_functions m_module F ft ⊆ r) →
  loop fuel dfuel ft wl p r = Some res →
  ∀ F, F ∈ res → collect_indirectly_called_functions m_module F ft ⊆ res.
Proof.
  intros Hqueue Hdone Hrun.
  destruct (process_working_list_inv
              (fun wl p r =>
                 (∀ x, x ∈ r → x ∈ p ∨ x ∈ wl)
                 ∧ ∀ F, F ∈ p →
                     collect_indirectly_called_functions m_module F ft ⊆ r)
              dfuel ft)
    with (fuel := fuel) (wl := wl) (p := p) (r := r) (res := res)
    as (p' & Hq' & Hd'); try done.
  - intros F rest p0 r0 [Hq Hd] HF. split; [|done].
    intros x Hx. destruct (Hq x Hx) as [?|Hin]; [by left|].
    apply elem_of_cons in Hin as [->|?]; auto.
  - intros F rest p0 r0 w [Hq Hd] HF Hw.
    pose proof (inner_grows _ _ _ _ Hw) as [Hsub (new & Hl & _ & Hnew)].
    simpl in *. split.
    + intros x Hx. destruct (decide (x ∈ r0)) as [Hx0|Hx0].
      * destruct (Hq x Hx0) as [?|Hin]; [left; set_solver|].
        apply elem_of_cons in Hin as [->|?]; [left; set_solver|].
        right. rewrite Hl. apply elem_of_app. by left.
      * right. rewrite Hl. apply elem_of_app. right. by apply Hnew.
    + intros G [->%elem_of_singleton|HG]%elem_of_union.
      * intros c Hc. eapply inner_inserted; [done|].
        by apply elem_of_iterate.
      * specialize (Hd G HG). set_solver.
  - intros F HF. destruct (Hq' F HF) as [?|Hnil]; [by apply Hd'|].
    by apply elem_of_nil in Hnil.
Qed.

(** Inserting a new function together with what the walk from its node
    finds keeps the set closed under call records. *)
Lemma direct_closed_insert r c rs :
  callgraph_of_module m_callGraph m_module →
  direct_closed m_callGraph m_module r →
  walk (cg_index m_callGraph c) ∅ rs →
  direct_closed m_callGraph m_module ({[c]} ∪ rs ∪ r).
Proof.
  intros Hcg Hr Hrs f Hf Hd.
  assert (f ∈ rs ∨ f ∈ r) as [Hin|Hin].
  { apply elem_of_union in Hf as [[Hfc%elem_of_singleton|?]%elem_of_union|?];
      auto.
    left. subst c. destruct (cg_defined _ _ Hcg f Hd) as [n Hn].
    rewrite Hn in Hrs. eapply Walk_start; [done| |done].
    by apply (cg_index_node _ _ Hcg). }
  - destruct (proj1 (Walk_closed m_callGraph m_module) _ _ _ Hrs f Hin)
      as [?|(n & Hn & Hcl)]; [set_solver|].
    exists n. split; [done|]. intros g Hg. specialize (Hcl g Hg). set_solver.
  - destruct (Hr f Hin Hd) as (n & Hn & Hcl).
    exists n. split; [done|]. intros g Hg. specialize (Hcl g Hg). set_solver.
Qed.

Lemma process_working_list_direct_closed fuel dfuel ft wl p r res :
  callgraph_of_module m_callGraph m_module →
  direct_closed m_callGraph m_module r →
  loop fuel dfuel ft wl p r = Some res →
  direct_closed m_callGraph m_module res.
Proof.
  intros Hcg Hr Hrun.
  destruct (process_working_list_inv
              (fun _ _ s => direct_closed m_callGraph m_module s) dfuel ft)
    with (fuel := fuel) (wl := wl) (p := p) (r := r) (res := res)
    as [_ ?]; try done.
  intros F rest p0 r0 w Hr0 _ Hw.
  apply (inner_inv _ _ _ _ _ Hw); [done|].
  intros r' c rs Hr' _ _ Hrs. by apply direct_closed_insert.
Qed.

(** Everything the loop inserts is justified by the rules of [Reach]. *)
Lemma process_working_list_sound entry fuel dfuel wl p r res :
  (∀ x, x ∈ wl → x ∈ r) →
  (∀ x, x ∈ r → Reach m_callGraph m_module entry x) →
  loop fuel dfuel index wl p r = Some res →
  ∀ x, x ∈ res → Reach m_callGraph m_module entry x.
Proof.
  intros Hwl Hr Hrun.
  destruct (process_working_list_inv
              (fun wl _ r =>
                 (∀ x, x ∈ wl → x ∈ r)
                 ∧ ∀ x, x ∈ r → Reach m_callGraph m_module entry x)
              dfuel index)
    with (fuel := fuel) (wl := wl) (p := p) (r := r) (res := res)
    as (_ & _ & ?); try done.
  - intros F rest p0 r0 [Hq Hs] _. split; [|done].
    intros x Hx. apply Hq. by right.
  - intros F rest p0 r0 w [Hq Hs] _ Hw.
    pose proof (inner_grows _ _ _ _ Hw) as [Hsub (new & Hl & _ & Hnew)].
    simpl in *. split.
    + intros x Hx. rewrite Hl in Hx.
      apply elem_of_app in Hx as [Hx|Hx]; [|by apply Hnew].
      apply Hsub, Hq. by right.
    + assert (Reach m_callGraph m_module entry F) as HF.
      { apply Hs, Hq. left. }
      apply (inner_inv (fun s => ∀ x, x ∈ s →
                                      Reach m_callGraph m_module entry x)
               _ _ _ _ Hw); [done|].
      intros r' c rs Hr' Hc%elem_of_iterate _ Hrs x Hx.
      assert (Reach m_callGraph m_module entry c) as Hrc
        by by eapply Reach_indirect.
      apply elem_of_union in Hx as [[->%elem_of_singleton|Hx]%elem_of_union|?];
        [done| |by apply Hr'].
      destruct (proj1 (Walk_sound m_callGraph m_module) _ _ _ Hrs x Hx)
        as [?|Hd]; [set_solver|].
      by eapply Reach_direct.
Qed.

(** With a fixed iteration order the loop is a function of its input: the
    fuel only decides whether it gets to the end. *)
Lemma inner_fuel_independent dfuel1 dfuel2 l :
  ∀ w w1 w2,
    foldM (step dfuel1) l w = Some w1 → foldM (step dfuel2) l w = Some w2 →
    w1 = w2.
Proof.
  induction l as [|c l IH]; simpl; intros w w1 w2 H1 H2; [congruence|].
  destruct (step dfuel1 w c) as [a1|] eqn:Ha1; [|done].
  destruct (step dfuel2 w c) as [a2|] eqn:Ha2; [|done].
  assert (a1 = a2) as ->; [|by eapply IH].
  unfold add_indirect in Ha1, Ha2. case_decide; [congruence|].
  destruct (collect_reachable_functions _ _ dfuel1 _ _) as [rs1|] eqn:Hrs1;
    [|done].
  destruct (collect_reachable_functions _ _ dfuel2 _ _) as [rs2|] eqn:Hrs2;
    [|done].
  apply collect_Walk in Hrs1, Hrs2.
  rewrite (proj1 (Walk_deterministic m_callGraph m_module) _ _ _ Hrs1 _ Hrs2)
    in Ha1.
  congruence.
Qed.

Lemma process_working_list_fuel_independent dfuel1 dfuel2 ft fuel1 :
  ∀ fuel2 wl p r res1 res2,
    loop fuel1 dfuel1 ft wl p r = Some res1 →
    loop fuel2 dfuel2 ft wl p r = Some res2 →
    res1 = res2.
Proof.
  induction fuel1 as [|fuel1 IH]; intros [|fuel2] wl p r res1 res2;
    simpl; try done.
  destruct wl as [|F rest]; [congruence|].
  case_decide; [apply IH|].
  destruct (foldM (step dfuel1) _ _) as [w1|] eqn:Hw1; [|done].
  destruct (foldM (step dfuel2) _ _) as [w2|] eqn:Hw2; [|done].
  rewrite (inner_fuel_independent _ _ _ _ _ _ Hw1 Hw2). apply IH.
Qed.

End Closure.

(** ** The query *)

Section Query.

Context {order : IterationOrder}.
Variable m_callGraph : CallGraph.
Variable m_module : Module.

Local Abbreviation query := (getReachableFunctions m_callGraph m_module).
Local Abbreviation walk := (Walk m_callGraph m_module).
Local Abbreviation reach := (Reach m_callGraph m_module).

Lemma getReachableFunctions_phases fuel F r :
  query fuel F = Some r →
  ∃ d, walk (cg_index m_callGraph F) ∅ d
       ∧ process_working_list m_callGraph m_module fuel fuel
           (collect_function_types m_module) (iterate d) ∅ d = Some r.
Proof.
  unfold getReachableFunctions, collect_indirectly_reachable_functions.
  destruct (collect_reachable_functions _ _ _ _ _) as [d|] eqn:Hd; [|done].
  intros Hr. exists d. split; [by eapply collect_Walk|done].
Qed.

Lemma length_iterate (s : FunctionSet) : length (iterate s) = size s.
Proof. by rewrite (iterate_perm s). Qed.

Lemma closure_terminates fuel (reachable : FunctionSet) :
  size (universe m_module ∪ reachable) < fuel →
  is_Some (collect_indirectly_reachable_functions m_callGraph m_module fuel
             reachable (collect_function_types m_module)).
Proof.
  intros Hfuel. unfold collect_indirectly_reachable_functions.
  apply process_working_list_terminates
    with (U := universe m_module ∪ reachable).
  - set_solver.
  - eapply Nat.le_lt_trans; [|exact Hfuel]. apply subseteq_size.
    pose proof (defined_functions_universe m_module). set_solver.
  - set_solver.
  - rewrite length_iterate, size_difference by set_solver.
    assert (size reachable ≤ size (universe m_module ∪ reachable))
      by (apply subseteq_size; set_solver).
    lia.
Qed.

(** The query returns whenever the fuel exceeds the number of functions it
    can meet. *)
Lemma getReachableFunctions_total fuel F :
  size (universe m_module) < fuel → is_Some (query fuel F).
Proof.
  intros Hfuel. unfold getReachableFunctions.
  pose proof (defined_functions_universe m_module) as Hdef.
  destruct (collect_terminates m_callGraph m_module fuel
              (cg_index m_callGraph F) ∅) as [d Hd].
  { eapply Nat.le_lt_trans; [|exact Hfuel]. apply subseteq_size. set_solver. }
  rewrite Hd. apply closure_terminates.
  apply collect_Walk, Walk_subseteq in Hd.
  replace (universe m_module ∪ d) with (universe m_module); [done|].
  apply set_eq. set_solver.
Qed.

Lemma getReachableFunctions_sound fuel entry r :
  query fuel entry = Some r → ∀ f, f ∈ r → reach entry f.
Proof.
  intros (d & Hd & Hloop)%getReachableFunctions_phases.
  eapply process_working_list_sound; [| |done].
  - intros x. by rewrite elem_of_iterate.
  - intros x Hx. apply Reach_entry.
    destruct (proj1 (Walk_sound m_callGraph m_module) _ _ _ Hd x Hx);
      [set_solver|done].
Qed.

Lemma walk_direct_closed c d :
  walk c ∅ d → direct_closed m_callGraph m_module d.
Proof.
  intros Hd f Hf _.
  destruct (proj1 (Walk_closed m_callGraph m_module) _ _ _ Hd f Hf);
    [set_solver|done].
Qed.

Lemma getReachableFunctions_direct_closed fuel entry r :
  callgraph_of_module m_callGraph m_module →
  query fuel entry = Some r → direct_closed m_callGraph m_module r.
Proof.
  intros Hcg (d & Hd & Hloop)%getReachableFunctions_phases.
  eapply process_working_list_direct_closed; [done| |done].
  by eapply walk_direct_closed.
Qed.

Lemma getReachableFunctions_indirect_closed fuel entry r :
  query fuel entry = Some r →
  ∀ F, F ∈ r →
       collect_indirectly_called_functions m_module F
         (collect_function_types m_module) ⊆ r.
Proof.
  intros (d & Hd & Hloop)%getReachableFunctions_phases.
  eapply process_working_list_scanned; [| |done].
  - intros x Hx. right. by apply elem_of_iterate.
  - set_solver.
Qed.

(** A set closed under call records holds everything on a path of call
    records from a node whose function it holds. *)
Lemma direct_closed_DReach r c f :
  callgraph_of_module m_callGraph m_module →
  direct_closed m_callGraph m_module r →
  DReach m_callGraph m_module c f →
  (∀ n f0, c = Some n → node_of m_callGraph f0 n →
           isDeclaration m_module f0 = false → f0 ∈ r) →
  f ∈ r.
Proof.
  intros Hcg Hr. induction 1 as [n f Hn Hd|n f c g Hn Hd Hc Hreach IH];
    intros Hstart; [by eapply Hstart|].
  apply IH. intros n' f0 -> Hn' Hd'.
  destruct (Hr f) as (n0 & Hn0 & Hcl); [by eapply Hstart|done|].
  apply (cg_node_index _ _ Hcg) in Hn0, Hn.
  assert (n0 = n) as -> by congruence.
  apply Hcl. by exists n'.
Qed.

(** On the call graph of the module, the query returns exactly the least
    set [Reach] describes. *)
Lemma getReachableFunctions_Reach fuel entry r :
  callgraph_of_module m_callGraph m_module →
  query fuel entry = Some r → ∀ f, f ∈ r ↔ reach entry f.
Proof.
  intros Hcg Hq f. split; [by eapply getReachableFunctions_sound|].
  pose proof (getReachableFunctions_direct_closed _ _ _ Hcg Hq) as Hclosed.
  pose proof (getReachableFunctions_indirect_closed _ _ _ Hq) as Hind.
  destruct (getReachableFunctions_phases _ _ _ Hq) as (d & Hd & Hloop).
  apply process_working_list_mono in Hloop.
  induction 1 as [f Hf|F c HF IH Hc|c f Hc IH Hf].
  - apply Hloop.
    eapply (direct_closed_DReach d); [done|by eapply walk_direct_closed|done|].
    intros n f0 Hn Hf0 Hd0. rewrite Hn in Hd. by eapply Walk_start.
  - by eapply Hind.
  - eapply direct_closed_DReach; [done..|].
    intros n f0 Hn Hf0 _.
    apply (cg_index_node _ _ Hcg) in Hn. unfold node_of in *.
    by replace f0 with c by congruence.
Qed.

End Query.

(** ** The sample program *)

Lemma sample_module_outside f : 6 < f → sample_module !! f = None.
Proof.
  intros Hf. unfold sample_module. apply not_elem_of_list_to_map_1. simpl.
  rewrite !elem_of_cons, elem_of_nil. lia.
Qed.

Ltac list_cases H :=
  repeat (apply elem_of_cons in H as [H|H]; [subst|]);
  try (by apply elem_of_nil in H).

Lemma sample_callgraph_ok : callgraph_of_module sample_callgraph sample_module.
Proof.
  split.
  - intros f n. unfold node_of.
    destruct f as [|[|[|[|[|[|[|f]]]]]]]; simpl; intros [= <-]; reflexivity.
  - intros f n. unfold node_of.
    destruct n as [|[|[|[|[|[|[|n]]]]]]]; simpl; intros [= <-]; reflexivity.
  - intros f Hd.
    destruct f as [|[|[|[|[|[|[|f]]]]]]]; simpl;
      try (by vm_compute in Hd); try (by eexists).
    unfold isDeclaration in Hd. by rewrite sample_module_outside in Hd by lia.
  - intros F cs C n (B & I & HB & HI & Hcs) Hcallee HdC Hn.
    destruct F as [|[|[|[|[|[|[|F]]]]]]]; simpl in Hn; simplify_eq;
      vm_compute in HB; list_cases HB; list_cases HI;
      simpl in Hcs; simplify_eq; simpl in Hcallee; simplify_eq;
      try (by vm_compute in HdC);
      match goal with |- calls _ _ _ ?callee => exists callee end;
      (split; [simpl; rewrite !elem_of_cons; auto|by split]).
Qed.

(** * The claims of the specification *)

(** ** Declarations *)

(** C1.  No function without a body is ever in the set the query returns.
    The walk over the call graph keeps to this (lemma [Walk_defined]), the
    closure does not: on the sample program it inserts [abs], a declaration
    whose type is the type of the call through a pointer in [main]. *)
Theorem declaration_reached_by_closure :
  getReachableFunctions sample_callgraph sample_module 7 1
    = Some {[1; 2; 3; 4]}
  ∧ isDeclaration sample_module 4 = true
  ∧ collect_reachable_functions sample_callgraph sample_module 7 (Some 1) ∅
    = Some {[1; 2]}.
Proof. repeat split; reflexivity. Qed.

(** C2.  The signature index maps a signature to the defined functions of
    that signature only.  On the sample program the entry of [int (int)]
    holds the declaration [abs] next to [inc]: the index takes every
    function of the module (lemma [collect_function_types_spec]). *)
Theorem declaration_in_signature_index :
  find_type (collect_function_types sample_module) int_int = {[3; 4]}
  ∧ isDeclaration sample_module 4 = true
  ∧ isDeclaration sample_module 3 = false.
Proof. repeat split; reflexivity. Qed.

(** ** Closure under direct calls *)

Lemma call_site_of_defined (M : Module) F cs :
  call_site_of M F cs → isDeclaration M F = false.
Proof.
  intros (B & I & HB & _). unfold body in HB. unfold isDeclaration.
  destruct (M !! F) as [fn|]; [|by apply elem_of_nil in HB].
  apply bool_decide_eq_false. intros Hnil. rewrite Hnil in HB.
  by apply elem_of_nil in HB.
Qed.

(** C3, as stated, fails: [main] of the sample program calls the declared
    [puts], which the walk skips. *)
Lemma direct_closure_counterexample :
  getReachableFunctions sample_callgraph sample_module 7 1
    = Some {[1; 2; 3; 4]}
  ∧ ¬ closed_under_direct_calls sample_module {[1; 2; 3; 4]}.
Proof.
  split; [reflexivity|]. intros Hclosed.
  assert (5 ∈ ({[1; 2; 3; 4]} : FunctionSet)) as Hin.
  { apply (Hclosed 1 (MkCallSite (Some 5) int_ptr []) 5);
      [set_solver| |reflexivity].
    eexists _, _.
    split; [|split]; [vm_compute; left|do 2 right; left|reflexivity]. }
  set_solver.
Qed.

(** C3, amended.  On the call graph of the module, for every function [F]
    in the returned set and every call site of [F] whose callee [C] is
    statically known and has a body, [C] is in the returned set. *)
Theorem direct_closure_of_defined_callees
    (order : IterationOrder) (CG : CallGraph) (M : Module)
    (fuel : nat) (entry : Func) (r : FunctionSet)
    (F : Func) (cs : CallSite) (C : Func) :
  callgraph_of_module CG M →
  getReachableFunctions CG M fuel entry = Some r →
  F ∈ r → call_site_of M F cs → getCalledFunction cs = Some C →
  isDeclaration M C = false →
  C ∈ r.
Proof.
  intros Hcg Hq HF Hcs Hcallee HC.
  destruct (getReachableFunctions_direct_closed CG M fuel entry r Hcg Hq F HF)
    as (n & Hn & Hcl); [by eapply call_site_of_defined|].
  apply Hcl. eapply (cg_call_records _ _ Hcg); [done..|].
  by apply (cg_node_index _ _ Hcg).
Qed.

Lemma direct_closure_of_defined_callees_witness :
  callgraph_of_module sample_callgraph sample_module
  ∧ 2 ∈ ({[1; 2; 3; 4]} : FunctionSet).
Proof.
  split; [exact sample_callgraph_ok|].
  apply (direct_closure_of_defined_callees elements_order
           sample_callgraph sample_module 7 1 {[1; 2; 3; 4]}
           1 (MkCallSite (Some 2) void_void []) 2).
  - exact sample_callgraph_ok.
  - reflexivity.
  - set_solver.
  - eexists _, _. split; [|split]; [vm_compute; left|left|reflexivity].
  - reflexivity.
  - reflexivity.
Defined.

(** ** Closure under indirect calls *)

(** C4.  For every function [F] in the returned set and every call site of
    [F] without a statically known callee, every defined function of the
    module whose signature is the called type is in the returned set. *)
Theorem indirect_closure
    (order : IterationOrder) (CG : CallGraph) (M : Module)
    (fuel : nat) (entry : Func) (r : FunctionSet)
    (F : Func) (cs : CallSite) (G : Func) (fn : Function) :
  getReachableFunctions CG M fuel entry = Some r →
  F ∈ r → call_site_of M F cs → getCalledFunction cs = None →
  M !! G = Some fn → isDeclaration M G = false →
  funType fn = getFunctionType cs →
  G ∈ r.
Proof.
  intros Hq HF Hcs Hcallee HG _ Hty.
  apply (getReachableFunctions_indirect_closed CG M fuel entry r Hq F HF).
  apply collect_indirectly_called_functions_spec. exists cs. split; [done|].
  left. unfold get_indirect_called_functions. rewrite Hcallee.
  apply collect_function_types_spec. by exists fn.
Qed.

Lemma indirect_closure_witness : 3 ∈ ({[1; 2; 3; 4]} : FunctionSet).
Proof.
  apply (indirect_closure elements_order sample_callgraph sample_module
           7 1 {[1; 2; 3; 4]} 1
           (MkCallSite None int_int [OtherValue (OtherTy 1)]) 3
           (MkFunction "inc" int_int [[OtherInst]])).
  - reflexivity.
  - set_solver.
  - eexists _, _. split; [|split]; [vm_compute; left|right; left|reflexivity].
  - reflexivity.
  - reflexivity.
  - reflexivity.
  - reflexivity.
Defined.

(** ** Monotonicity *)

(** C5.  The set the query returns includes the set the walk over the call
    graph alone produces from the entry. *)
Theorem closure_extends_direct_walk
    (order : IterationOrder) (CG : CallGraph) (M : Module)
    (fuel fuel' : nat) (entry : Func) (r d : FunctionSet) :
  getReachableFunctions CG M fuel entry = Some r →
  collect_reachable_functions CG M fuel' (cg_index CG entry) ∅ = Some d →
  d ⊆ r.
Proof.
  intros (d' & Hd' & Hloop)%getReachableFunctions_phases Hd%collect_Walk.
  rewrite (proj1 (Walk_deterministic CG M) _ _ _ Hd _ Hd').
  by eapply process_working_list_mono.
Qed.

Lemma closure_extends_direct_walk_witness :
  ({[1; 2]} : FunctionSet) ⊆ {[1; 2; 3; 4]}.
Proof.
  apply (closure_extends_direct_walk elements_order sample_callgraph
           sample_module 7 3 1); reflexivity.
Defined.

(** ** The walk over the call graph *)

(** C6.  Given fuel beyond the number of defined functions not yet in the
    set, the walk returns, on any call graph, cyclic or not.  It returns
    the set unchanged exactly when the branch ends at once: the node is
    null, has no function, its function is a declaration, or its function
    is in the set already.  Every function the walk inserts has a body and
    a node whose callees with a body are all in the set returned. *)
Theorem collect_reachable_functions_walk
    (CG : CallGraph) (M : Module) (fuel : nat)
    (callNode : option NodeId) (out : FunctionSet) :
  size (defined_functions M ∖ out) < fuel →
  ∃ out',
    collect_reachable_functions CG M fuel callNode out = Some out'
    ∧ (out' = out ↔ branch_ends CG M callNode out)
    ∧ out ⊆ out'
    ∧ ∀ f, f ∈ out' →
           f ∈ out
           ∨ (isDeclaration M f = false
              ∧ ∃ n, node_of CG f n ∧ ∀ g, calls CG M n g → g ∈ out').
Proof.
  intros Hfuel.
  destruct (collect_terminates CG M fuel callNode out Hfuel) as [out' Hrun].
  exists out'. split; [done|]. apply collect_Walk in Hrun.
  split; [|split].
  - unfold branch_ends.
    inversion Hrun as [|? ? Hx|? g ? Hg Hgd|? g ? Hg Hgd Hin
                       |? g ? ? Hg Hgd Hin Hws]; subst;
      unfold node_of in *; try rewrite Hx; try rewrite Hg; try tauto.
    apply (proj2 (Walk_mono CG M)) in Hws. split.
    + intros ->. set_solver.
    + intros [?|?]; [congruence|done].
  - by apply (proj1 (Walk_mono CG M)) in Hrun.
  - intros f Hf.
    destruct (proj1 (Walk_closed CG M) _ _ _ Hrun f Hf) as [?|Hn];
      [by left|].
    destruct (proj1 (Walk_defined CG M) _ _ _ Hrun f Hf); auto.
Qed.

(** [helper] and [main] call each other; two levels of recursion beyond
    the first call suffice. *)
Lemma collect_reachable_functions_walk_witness :
  ∃ out',
    collect_reachable_functions sample_callgraph sample_module 5 (Some 2) ∅
      = Some out'
    ∧ (out' = ∅ ↔ branch_ends sample_callgraph sample_module (Some 2) ∅)
    ∧ ∅ ⊆ out'
    ∧ ∀ f, f ∈ out' →
           f ∈ (∅ : FunctionSet)
           ∨ (isDeclaration sample_module f = false
              ∧ ∃ n, node_of sample_callgraph f n
                     ∧ ∀ g, calls sample_callgraph sample_module n g →
                            g ∈ out').
Proof.
  apply (collect_reachable_functions_walk sample_callgraph sample_module 5
           (Some 2) ∅).
  vm_compute. lia.
Defined.

(** ** Termination of the closure *)

(** C7.  The closure loop ends on every input.  Each turn either drops an
    already scanned function from the queue or scans one function once; a
    function enters the queue only with its insertion into the reachable
    set, which only grows and stays within a finite universe: the functions
    of the module, those named by arguments of their call sites, and the
    set given.  So fuel beyond the size of that universe is never used up. *)
Theorem collect_indirectly_reachable_functions_terminates
    (order : IterationOrder) (CG : CallGraph) (M : Module)
    (fuel : nat) (reachable_functions : FunctionSet) :
  size (universe M ∪ reachable_functions) < fuel →
  ∃ res,
    collect_indirectly_reachable_functions CG M fuel reachable_functions
      (collect_function_types M) = Some res
    ∧ reachable_functions ⊆ res
    ∧ res ⊆ universe M ∪ reachable_functions.
Proof.
  intros Hfuel.
  destruct (closure_terminates CG M fuel reachable_functions Hfuel)
    as [res Hres].
  exists res. split; [done|]. split.
  - by eapply process_working_list_mono.
  - eapply process_working_list_bounded; [| |exact Hres]; set_solver.
Qed.

Lemma collect_indirectly_reachable_functions_terminates_witness :
  ∃ res,
    collect_indirectly_reachable_functions sample_callgraph sample_module 7
      {[1; 2]} (collect_function_types sample_module) = Some res
    ∧ {[1; 2]} ⊆ res
    ∧ res ⊆ universe sample_module ∪ {[1; 2]}.
Proof.
  apply (collect_indirectly_reachable_functions_terminates elements_order
           sample_callgraph sample_module 7 {[1; 2]}).
  vm_compute. lia.
Defined.

(** ** The pass *)

Lemma getFunctionByName_None (M : Module) name :
  getFunctionByName M name = None
  ↔ ∀ f fn, M !! f = Some fn → getName fn ≠ name.
Proof.
  unfold getFunctionByName. rewrite fmap_None, list_find_None, Forall_forall.
  split.
  - intros Hall f fn Hf. apply (Hall (f, fn)). by apply elem_of_map_to_list.
  - intros Hall [f fn] Hf%elem_of_map_to_list. by eapply Hall.
Qed.

Lemma getFunctionByName_Some (M : Module) name f :
  getFunctionByName M name = Some f →
  ∃ fn, M !! f = Some fn ∧ getName fn = name.
Proof.
  unfold getFunctionByName.
  intros ([i [g fn]] & Hfind & ->)%fmap_Some.
  apply list_find_Some in Hfind as (Hi & Hname & _).
  exists fn. split; [|done].
  by eapply elem_of_map_to_list, list_elem_of_lookup_2.
Qed.

(** C8.  When the module has no function named [main], the pass writes
    that to the log and returns [false] without running the query,
    whatever the fuel.  That is the only failure: when there is one, the
    query returns a set for it, and the pass reports that set and returns
    [false]. *)
Theorem runOnModule_entry
    (order : IterationOrder) (CG : CallGraph) (M : Module) (fuel : nat) :
  ((∀ f fn, M !! f = Some fn → getName fn ≠ "main") →
   runOnModule fuel CG M = Some ("No function main" +:+ newline, false))
  ∧ ((∃ f fn, M !! f = Some fn ∧ getName fn = "main") →
     size (universe M) < fuel →
     ∃ mainF fn r,
       M !! mainF = Some fn ∧ getName fn = "main"
       ∧ getReachableFunctions CG M fuel mainF = Some r
       ∧ runOnModule fuel CG M = Some (report M r, false)).
Proof.
  unfold runOnModule. split.
  - intros Hnone%getFunctionByName_None. by rewrite Hnone.
  - intros (f & fn & Hf & Hname) Hfuel.
    destruct (getFunctionByName M "main") as [mainF|] eqn:Hmain.
    + destruct (getFunctionByName_Some _ _ _ Hmain) as (fn' & Hfn' & Hname').
      destruct (getReachableFunctions_total CG M fuel mainF Hfuel)
        as [r Hr].
      exists mainF, fn', r. by rewrite Hr.
    + rewrite getFunctionByName_None in Hmain. by destruct (Hmain f fn).
Qed.

Lemma runOnModule_entry_witness :
  runOnModule 0 sample_callgraph library_module
    = Some ("No function main" +:+ newline, false)
  ∧ ∃ mainF fn r,
      sample_module !! mainF = Some fn ∧ getName fn = "main"
      ∧ getReachableFunctions sample_callgraph sample_module 7 mainF = Some r
      ∧ runOnModule 7 sample_callgraph sample_module
        = Some (report sample_module r, false).
Proof.
  split.
  - apply (proj1 (runOnModule_entry elements_order sample_callgraph
                    library_module 0)).
    apply getFunctionByName_None. reflexivity.
  - apply (proj2 (runOnModule_entry elements_order sample_callgraph
                    sample_module 7)).
    + exists 1. eexists. split; reflexivity.
    + vm_compute. lia.
Defined.

(** ** Determinism *)

(** C9.  Two runs of the query on the same module, call graph and entry
    return the same set.  With the same iteration order of the sets this
    holds on any input, however much fuel each run is given; on the call
    graph of the module it holds for any two iteration orders, the set
    being the least one [Reach] describes. *)
Theorem getReachableFunctions_deterministic
    (order1 order2 : IterationOrder) (CG : CallGraph) (M : Module)
    (fuel1 fuel2 : nat) (entry : Func) (r1 r2 : FunctionSet) :
  order1 = order2 ∨ callgraph_of_module CG M →
  @getReachableFunctions order1 CG M fuel1 entry = Some r1 →
  @getReachableFunctions order2 CG M fuel2 entry = Some r2 →
  r1 = r2.
Proof.
  intros [<-|Hcg] H1 H2.
  - apply getReachableFunctions_phases in H1 as (d1 & Hd1 & Hl1).
    apply getReachableFunctions_phases in H2 as (d2 & Hd2 & Hl2).
    rewrite (proj1 (Walk_deterministic CG M) _ _ _ Hd1 _ Hd2) in Hl1.
    by eapply process_working_list_fuel_independent.
  - apply set_eq. intros f.
    rewrite (getReachableFunctions_Reach CG M fuel1 entry r1 Hcg H1).
    by rewrite (getReachableFunctions_Reach CG M fuel2 entry r2 Hcg H2).
Qed.

(** An order other than that of [elements]: the reverse. *)
Lemma reverse_elements_perm (s : FunctionSet) :
  reverse (elements s) ≡ₚ elements s.
Proof. apply reverse_Permutation. Qed.

Lemma getReachableFunctions_deterministic_witness :
  @getReachableFunctions elements_order sample_callgraph sample_module 7 1
  = @getReachableFunctions
      {| iterate s := reverse (elements s);
         iterate_perm := reverse_elements_perm |}
      sample_callgraph sample_module 9 1.
Proof.
  assert (∃ r1 r2,
    @getReachableFunctions elements_order sample_callgraph sample_module 7 1
      = Some r1
    ∧ @getReachableFunctions
        {| iterate s := reverse (elements s);
           iterate_perm := reverse_elements_perm |}
        sample_callgraph sample_module 9 1 = Some r2) as (r1 & r2 & H1 & H2).
  { eexists _, _. split; vm_compute; reflexivity. }
  rewrite H1, H2. f_equal.
  eapply (getReachableFunctions_deterministic _ _ sample_callgraph
            sample_module 7 9 1 r1 r2); [|exact H1|exact H2].
  right. exact sample_callgraph_ok.
Defined.

(** ** The entry itself *)

(** C10.  On the call graph of the module, the set returned for an entry
    contains the entry exactly when the entry has a body; for an entry
    without one the walk inserts nothing and the set returned is empty. *)
Theorem entry_in_result
    (order : IterationOrder) (CG : CallGraph) (M : Module)
    (fuel : nat) (entry : Func) (r : FunctionSet) :
  callgraph_of_module CG M →
  getReachableFunctions CG M fuel entry = Some r →
  (entry ∈ r ↔ isDeclaration M entry = false)
  ∧ (isDeclaration M entry = true →
     collect_reachable_functions CG M fuel (cg_index CG entry) ∅ = Some ∅
     ∧ r = ∅).
Proof.
  intros Hcg Hq.
  assert (isDeclaration M entry = true →
          collect_reachable_functions CG M fuel (cg_index CG entry) ∅ = Some ∅
          ∧ r = ∅) as Hdecl.
  { intros Hd. unfold getReachableFunctions in Hq.
    destruct (collect_reachable_functions _ _ _ _ _) as [d|] eqn:Hrun;
      [|done].
    assert (d = ∅) as ->.
    { apply collect_Walk in Hrun.
      destruct (cg_index CG entry) as [n|] eqn:Hn; [|by inversion Hrun].
      apply (cg_index_node _ _ Hcg) in Hn. unfold node_of in Hn.
      inversion Hrun; subst; unfold node_of in *; congruence. }
    split; [done|].
    unfold collect_indirectly_reachable_functions in Hq.
    assert (iterate (∅ : FunctionSet) = []) as Hnil.
    { apply Permutation_nil_r. by rewrite (iterate_perm ∅), elements_empty. }
    rewrite Hnil in Hq. destruct fuel; simpl in Hq; congruence. }
  split; [|done]. split.
  - intros Hin. destruct (isDeclaration M entry) eqn:Hd; [|done].
    destruct Hdecl as [_ ->]; [done|]. set_solver.
  - intros Hd.
    destruct (getReachableFunctions_phases _ _ _ _ _ Hq) as (d & Hwalk & Hloop).
    apply process_working_list_mono in Hloop. apply Hloop.
    destruct (cg_defined _ _ Hcg entry Hd) as [n Hn].
    rewrite Hn in Hwalk. eapply Walk_start; [done| |done].
    by apply (cg_index_node _ _ Hcg).
Qed.

Lemma entry_in_result_witness :
  ((1 ∈ ({[1; 2; 3; 4]} : FunctionSet) ↔ isDeclaration sample_module 1 = false)
   ∧ (isDeclaration sample_module 1 = true →
      collect_reachable_functions sample_callgraph sample_module 7
        (cg_index sample_callgraph 1) ∅ = Some ∅
      ∧ ({[1; 2; 3; 4]} : FunctionSet) = ∅))
  ∧ ((5 ∈ (∅ : FunctionSet) ↔ isDeclaration sample_module 5 = false)
     ∧ (isDeclaration sample_module 5 = true →
        collect_reachable_functions sample_callgraph sample_module 7
          (cg_index sample_callgraph 5) ∅ = Some ∅
        ∧ (∅ : FunctionSet) = ∅)).
Proof.
  split.
  - apply (entry_in_result elements_order sample_callgraph sample_module
             7 1 {[1; 2; 3; 4]}); [exact sample_callgraph_ok|reflexivity].
  - apply (entry_in_result elements_order sample_callgraph sample_module
             7 5 ∅); [exact sample_callgraph_ok|reflexivity].
Defined.

(** * Further properties of the code *)

(** ** The signature index and the candidates of a call site *)

Lemma index_entries_nonempty (l : list (Func * Function)) :
  ∀ functionTypes : FunctionTypeMap,
    (∀ ty s, functionTypes !! ty = Some s → s ≠ ∅) →
    ∀ ty s, foldl add_function_type functionTypes l !! ty = Some s → s ≠ ∅.
Proof.
  induction l as [|[f fn] l IH]; intros functionTypes Hne; simpl; [done|].
  apply IH. intros ty s. unfold add_function_type. simpl.
  destruct (decide (funType fn = ty)) as [->|Hty].
  - rewrite lookup_insert_eq. intros [= <-]. set_solver.
  - rewrite lookup_insert_ne by done. apply Hne.
Qed.

(** X1.  A signature is a key of the index exactly when some function of
    the module has it; its entry is then not empty and holds exactly the
    functions of the module with that signature. *)
Theorem signature_index_entries (M : Module) (ty : FunctionType) :
  match collect_function_types M !! ty with
  | Some s => s ≠ ∅ ∧ ∀ f, f ∈ s ↔ ∃ fn, M !! f = Some fn ∧ funType fn = ty
  | None => ∀ f fn, M !! f = Some fn → funType fn ≠ ty
  end.
Proof.
  pose proof (collect_function_types_spec M ty) as Hspec.
  unfold find_type in Hspec.
  destruct (collect_function_types M !! ty) as [s|] eqn:Hs; simpl in Hspec.
  - split; [|done].
    eapply (index_entries_nonempty (map_to_list M) ∅); [|exact Hs].
    intros ty' s'. by rewrite lookup_empty.
  - intros f fn Hf Hty.
    apply (not_elem_of_empty (C := FunctionSet) f), Hspec. by exists fn.
Qed.

(** X2.  A call site contributes no indirect target exactly when its callee
    is statically known or no function of the module has the called type:
    a type the index does not know is not an error. *)
Theorem indirect_targets_empty (M : Module) (callInst : CallSite) :
  get_indirect_called_functions callInst (collect_function_types M) = ∅
  ↔ is_Some (getCalledFunction callInst)
    ∨ ∀ f fn, M !! f = Some fn → funType fn ≠ getFunctionType callInst.
Proof.
  unfold get_indirect_called_functions.
  destruct (getCalledFunction callInst) as [C|]; [by split; eauto|].
  split.
  - intros Hempty. right. intros f fn Hf Hty.
    apply (not_elem_of_empty (C := FunctionSet) f). rewrite <- Hempty.
    apply collect_function_types_spec. by exists fn.
  - intros [[? [=]]|Hnone]. apply set_eq. intros f.
    rewrite collect_function_types_spec. split; [|set_solver].
    intros (fn & Hf & Hty). by destruct (Hnone f fn).
Qed.

Lemma get_functions_from_arguments_index
    (M : Module) (callInst : CallSite) (x : Func) :
  x ∈ get_functions_from_arguments callInst (collect_function_types M)
  ↔ FunctionRef x ∈ argOperands callInst
    ∨ ∃ fType fn, OtherValue (FunctionTy fType) ∈ argOperands callInst
                  ∧ M !! x = Some fn ∧ funType fn = fType.
Proof.
  rewrite get_functions_from_arguments_spec. split.
  - intros ([g|[fType|k]] & Harg & Hx); simpl in Hx.
    + left. by replace x with g by set_solver.
    + right. rewrite union_empty_r_L in Hx.
      apply collect_function_types_spec in Hx as (fn & Hf & Hty).
      by exists fType, fn.
    + set_solver.
  - intros [Harg|(fType & fn & Harg & Hf & Hty)].
    + exists (FunctionRef x). split; [done|]. simpl. set_solver.
    + exists (OtherValue (FunctionTy fType)). split; [done|]. simpl.
      rewrite union_empty_r_L. apply collect_function_types_spec.
      by exists fn.
Qed.

(** X3.  The callbacks of a call site are the functions passed to it as
    arguments, with a body or without, and the functions of the module
    whose signature is the type of an argument that is not a function. *)
Theorem callback_candidates (M : Module) (callInst : CallSite) (x : Func) :
  x ∈ get_functions_from_arguments callInst (collect_function_types M)
  ↔ FunctionRef x ∈ argOperands callInst
    ∨ ∃ fType fn, OtherValue (FunctionTy fType) ∈ argOperands callInst
                  ∧ M !! x = Some fn ∧ funType fn = fType.
Proof. apply get_functions_from_arguments_index. Qed.

(** X4.  What a function calls indirectly: for some call or invoke of its
    body, a function of the module with the called type when the callee is
    not known, or a callback of that call site.  A function without a body
    calls nothing indirectly. *)
Theorem indirectly_called_functions_of_body (M : Module) (F x : Func) :
  (x ∈ collect_indirectly_called_functions M F (collect_function_types M)
   ↔ ∃ cs, call_site_of M F cs
           ∧ ((getCalledFunction cs = None
               ∧ ∃ fn, M !! x = Some fn ∧ funType fn = getFunctionType cs)
              ∨ x ∈ get_functions_from_arguments cs
                      (collect_function_types M)))
  ∧ (isDeclaration M F = true →
     collect_indirectly_called_functions M F (collect_function_types M) = ∅).
Proof.
  split.
  - rewrite collect_indirectly_called_functions_spec.
    split; intros (cs & Hcs & Hx); exists cs; (split; [done|]).
    + destruct Hx as [Hx|?]; [left|by right].
      unfold get_indirect_called_functions in Hx.
      destruct (getCalledFunction cs); [set_solver|].
      split; [done|]. by apply collect_function_types_spec.
    + destruct Hx as [[Hnone Hx]|?]; [left|by right].
      unfold get_indirect_called_functions. rewrite Hnone.
      by apply collect_function_types_spec.
  - intros Hd. unfold collect_indirectly_called_functions, body.
    unfold isDeclaration in Hd. destruct (M !! F) as [fn|]; [|done].
    apply bool_decide_eq_true in Hd. by rewrite Hd.
Qed.

(** ** The walk *)

(** X5.  On the call graph of the module, the walk started with the empty
    set returns exactly the functions met on a path of call records from
    the node through nodes of defined functions. *)
Theorem direct_walk_exact
    (CG : CallGraph) (M : Module) (fuel : nat)
    (callNode : option NodeId) (d : FunctionSet) :
  callgraph_of_module CG M →
  collect_reachable_functions CG M fuel callNode ∅ = Some d →
  ∀ f, f ∈ d ↔ DReach CG M callNode f.
Proof.
  intros Hcg Hd%collect_Walk f. split.
  - intros Hf. destruct (proj1 (Walk_sound CG M) _ _ _ Hd f Hf);
      [set_solver|done].
  - intros Hreach.
    eapply (direct_closed_DReach CG M d); [done| |done|].
    + by eapply walk_direct_closed.
    + intros n f0 -> Hn Hf0. by eapply Walk_start.
Qed.

Lemma direct_walk_exact_witness :
  callgraph_of_module sample_callgraph sample_module
  ∧ ∀ f, f ∈ ({[1; 2]} : FunctionSet)
         ↔ DReach sample_callgraph sample_module (Some 2) f.
Proof.
  split; [exact sample_callgraph_ok|].
  apply (direct_walk_exact sample_callgraph sample_module 3 (Some 2)).
  - exact sample_callgraph_ok.
  - reflexivity.
Defined.

(** X6.  A second walk from the same node, started with the set the first
    one returned, returns that set: the walk adds nothing twice. *)
Theorem walk_again_adds_nothing
    (CG : CallGraph) (M : Module) (fuel : nat)
    (callNode : option NodeId) (out out' : FunctionSet) :
  collect_reachable_functions CG M fuel callNode out = Some out' →
  collect_reachable_functions CG M fuel callNode out' = Some out'.
Proof.
  intros Hrun. pose proof (collect_Walk _ _ _ _ _ _ Hrun) as Hwalk.
  destruct fuel as [|fuel]; [done|]. simpl in *.
  destruct callNode as [n|]; [|done].
  destruct (getFunction (cg_node CG n)) as [f|] eqn:Hf; [|done].
  destruct (isDeclaration M f) eqn:Hd; [done|].
  rewrite decide_True; [done|].
  by eapply Walk_start.
Qed.

Lemma walk_again_adds_nothing_witness :
  collect_reachable_functions sample_callgraph sample_module 3 (Some 1)
    {[1; 2]} = Some {[1; 2]}.
Proof.
  apply (walk_again_adds_nothing sample_callgraph sample_module 3 (Some 1) ∅).
  reflexivity.
Defined.

(** ** The closure and the query *)

Section Further.

Context {order : IterationOrder}.
Variable m_callGraph : CallGraph.
Variable m_module : Module.

Local Abbreviation query := (getReachableFunctions m_callGraph m_module).
Local Abbreviation index := (collect_function_types m_module).
Local Abbreviation called F :=
  (collect_indirectly_called_functions m_module F
     (collect_function_types m_module)).
Local Abbreviation step := (add_indirect m_callGraph m_module).
Local Abbreviation loop := (process_working_list m_callGraph m_module).

Lemma elem_of_universe x :
  x ∈ universe m_module ↔ x ∈ dom m_module ∨ ∃ F, x ∈ called F.
Proof.
  split.
  - unfold universe. rewrite elem_of_union, elem_of_union_list.
    intros [?|(s & Hs & Hx)]; [by left|right].
    apply list_elem_of_fmap in Hs as (F & -> & _). by exists F.
  - intros [?|[F HF]]; [unfold universe; set_solver|].
    by apply (indirectly_called_universe m_module F).
Qed.

Lemma getReachableFunctions_universe fuel entry r :
  query fuel entry = Some r → r ⊆ universe m_module.
Proof.
  intros (d & Hd & Hloop)%getReachableFunctions_phases.
  eapply process_working_list_bounded; [done| |exact Hloop].
  apply Walk_subseteq in Hd.
  pose proof (defined_functions_universe m_module). set_solver.
Qed.

(** Scanning a function whose candidates are all reachable changes
    nothing. *)
Lemma inner_noop dfuel l :
  ∀ w : Work, (∀ c, c ∈ l → c ∈ w.2) → foldM (step dfuel) l w = Some w.
Proof.
  induction l as [|c l IH]; intros w Hin; simpl; [done|].
  unfold add_indirect at 1. rewrite decide_True by (apply Hin; left).
  apply IH. intros c' Hc'. apply Hin. by right.
Qed.

Lemma process_working_list_fixpoint fuel dfuel wl p r res :
  (∀ x, x ∈ wl → x ∈ r) →
  (∀ F, F ∈ r → called F ⊆ r) →
  loop fuel dfuel index wl p r = Some res → res = r.
Proof.
  intros Hwl Hclosed Hrun.
  destruct (process_working_list_inv m_callGraph m_module
              (fun wl _ s => (∀ x, x ∈ wl → x ∈ r) ∧ s = r) dfuel index)
    with (fuel := fuel) (wl := wl) (p := p) (r := r) (res := res)
    as (_ & _ & ?); try done.
  - intros F rest p0 r0 [Hq ->] _. split; [|done].
    intros x Hx. apply Hq. by right.
  - intros F rest p0 r0 w [Hq ->] _ Hw.
    rewrite inner_noop in Hw.
    + simplify_eq. simpl. split; [|done]. intros x Hx. apply Hq. by right.
    + intros c Hc%elem_of_iterate. simpl.
      apply (Hclosed F); [|done]. apply Hq. left.
Qed.

End Further.

(** X7.  Callbacks are reachable: for every function in the returned set
    and every call site of it, with a known callee or not, each function
    passed as an argument is in the set, and so is each function of the
    module whose signature is the type of an argument. *)
Theorem callback_closure
    (order : IterationOrder) (CG : CallGraph) (M : Module)
    (fuel : nat) (entry : Func) (r : FunctionSet)
    (F : Func) (cs : CallSite) :
  getReachableFunctions CG M fuel entry = Some r →
  F ∈ r → call_site_of M F cs →
  (∀ g, FunctionRef g ∈ argOperands cs → g ∈ r)
  ∧ (∀ fType g fn,
       OtherValue (FunctionTy fType) ∈ argOperands cs →
       M !! g = Some fn → funType fn = fType → g ∈ r).
Proof.
  intros Hq HF Hcs.
  assert (∀ g, g ∈ get_functions_from_arguments cs (collect_function_types M)
               → g ∈ r) as Hall.
  { intros g Hg.
    apply (getReachableFunctions_indirect_closed CG M fuel entry r Hq F HF).
    apply collect_indirectly_called_functions_spec. exists cs. auto. }
  split.
  - intros g Hg. apply Hall, get_functions_from_arguments_index. by left.
  - intros fType g fn Harg Hg Hty.
    apply Hall, get_functions_from_arguments_index.
    right. by exists fType, fn.
Qed.

Lemma callback_closure_witness :
  (∀ g, FunctionRef g ∈ [FunctionRef 5] → g ∈ ({[1; 2; 3; 4; 5]} : FunctionSet))
  ∧ (∀ fType g fn,
       OtherValue (FunctionTy fType) ∈ [FunctionRef 5] →
       callback_module !! g = Some fn → funType fn = fType →
       g ∈ ({[1; 2; 3; 4; 5]} : FunctionSet)).
Proof.
  apply (callback_closure elements_order callback_callgraph callback_module
           7 1 {[1; 2; 3; 4; 5]} 1
           (MkCallSite (Some 2) callback_ty [FunctionRef 5])).
  - reflexivity.
  - set_solver.
  - eexists _, _. split; [|split]; [vm_compute; left|right; left|reflexivity].
Defined.

Lemma Walk_unchanged (CG : CallGraph) (M : Module) c out out' :
  Walk CG M c out out' → (out' = out ↔ branch_ends CG M c out).
Proof.
  intros Hwalk. unfold branch_ends.
  inversion Hwalk as [|? ? Hx|? g ? Hg Hgd|? g ? Hg Hgd Hin
                      |? g ? ? Hg Hgd Hin Hws]; subst;
    unfold node_of in *; try rewrite Hx; try rewrite Hg; try tauto.
  apply (proj2 (Walk_mono CG M)) in Hws. split.
  - intros ->. set_solver.
  - intros [?|?]; [congruence|done].
Qed.

Lemma closure_of_empty
    (order : IterationOrder) (CG : CallGraph) (M : Module)
    (fuel : nat) (ft : FunctionTypeMap) (res : FunctionSet) :
  collect_indirectly_reachable_functions CG M fuel ∅ ft = Some res → res = ∅.
Proof.
  unfold collect_indirectly_reachable_functions.
  assert (iterate (∅ : FunctionSet) = []) as ->.
  { apply Permutation_nil_r. by rewrite (iterate_perm ∅), elements_empty. }
  destruct fuel; simpl; congruence.
Qed.

(** X8.  The closure is a fixed point: run again on the set the query
    returned, it returns that set. *)
Theorem closure_of_result
    (order : IterationOrder) (CG : CallGraph) (M : Module)
    (fuel fuel' : nat) (entry : Func) (r : FunctionSet) :
  getReachableFunctions CG M fuel entry = Some r →
  size (universe M) < fuel' →
  collect_indirectly_reachable_functions CG M fuel' r
    (collect_function_types M) = Some r.
Proof.
  intros Hq Hfuel.
  pose proof (getReachableFunctions_universe CG M fuel entry r Hq) as Hr.
  destruct (closure_terminates CG M fuel' r) as [res Hres].
  { replace (universe M ∪ r) with (universe M); [done|].
    apply set_eq. set_solver. }
  rewrite Hres. f_equal.
  eapply process_working_list_fixpoint; [| |exact Hres].
  - intros x. by rewrite elem_of_iterate.
  - by eapply getReachableFunctions_indirect_closed.
Qed.

Lemma closure_of_result_witness :
  collect_indirectly_reachable_functions callback_callgraph callback_module 7
    {[1; 2; 3; 4; 5]} (collect_function_types callback_module)
  = Some {[1; 2; 3; 4; 5]}.
Proof.
  apply (closure_of_result elements_order callback_callgraph callback_module
           7 7 1).
  - reflexivity.
  - vm_compute. lia.
Defined.



(** X10.  Nothing is in the returned set without a reason: the set is
    included in every set that holds what the walk from the entry meets
    and that is closed under the indirectly called functions of its
    members and under the walk from each member. *)
Theorem reachable_set_least
    (order : IterationOrder) (CG : CallGraph) (M : Module)
    (fuel : nat) (entry : Func) (r S : FunctionSet) :
  getReachableFunctions CG M fuel entry = Some r →
  (∀ f, DReach CG M (cg_index CG entry) f → f ∈ S) →
  (∀ F c, F ∈ S →
          c ∈ collect_indirectly_called_functions M F
                (collect_function_types M) →
          c ∈ S) →
  (∀ c f, c ∈ S → DReach CG M (cg_index CG c) f → f ∈ S) →
  r ⊆ S.
Proof.
  intros Hq Hentry Hind Hdir f Hf.
  apply (getReachableFunctions_sound CG M fuel entry r Hq) in Hf.
  induction Hf as [f Hf|F c HF IH Hc|c f Hc IH Hf]; eauto.
Qed.

(** X11.  On the call graph of the module the returned set is exactly the
    least such set: the functions [Reach] derives from the entry. *)
Theorem reachable_set_exact
    (order : IterationOrder) (CG : CallGraph) (M : Module)
    (fuel : nat) (entry : Func) (r : FunctionSet) :
  callgraph_of_module CG M →
  getReachableFunctions CG M fuel entry = Some r →
  ∀ f, f ∈ r ↔ Reach CG M entry f.
Proof. intros Hcg Hq. by eapply getReachableFunctions_Reach. Qed.

Lemma reachable_set_exact_witness :
  callgraph_of_module sample_callgraph sample_module
  ∧ ∀ f, f ∈ ({[1; 2; 3; 4]} : FunctionSet)
         ↔ Reach sample_callgraph sample_module 1 f.
Proof.
  split; [exact sample_callgraph_ok|].
  apply (reachable_set_exact elements_order sample_callgraph sample_module
           7 1).
  - exact sample_callgraph_ok.
  - reflexivity.
Defined.

(** X12.  The query returns the empty set exactly when the walk ends at
    the entry's node: the node is null or has no function, or its function
    is a declaration. *)
Theorem empty_result
    (order : IterationOrder) (CG : CallGraph) (M : Module)
    (fuel : nat) (entry : Func) (r : FunctionSet) :
  getReachableFunctions CG M fuel entry = Some r →
  (r = ∅ ↔ branch_ends CG M (cg_index CG entry) ∅).
Proof.
  intros Hq.
  destruct (getReachableFunctions_phases CG M fuel entry r Hq)
    as (d & Hd & Hloop).
  rewrite <- (Walk_unchanged CG M _ _ _ Hd). split.
  - intros ->. apply process_working_list_mono in Hloop.
    apply set_eq. set_solver.
  - intros ->. by eapply closure_of_empty.
Qed.

Lemma empty_result_witness :
  (∅ : FunctionSet) = ∅
  ↔ branch_ends callback_callgraph callback_module
      (cg_index callback_callgraph 5) ∅.
Proof.
  apply (empty_result elements_order callback_callgraph callback_module 7 5).
  reflexivity.
Defined.

(** X13.  Every function in the returned set is a function of the module
    or is passed as an argument at a call site of a function of the
    module. *)
Theorem result_within_module
    (order : IterationOrder) (CG : CallGraph) (M : Module)
    (fuel : nat) (entry : Func) (r : FunctionSet) (f : Func) :
  getReachableFunctions CG M fuel entry = Some r →
  f ∈ r →
  f ∈ dom M ∨ ∃ F cs, call_site_of M F cs ∧ FunctionRef f ∈ argOperands cs.
Proof.
  intros Hq Hf.
  apply (getReachableFunctions_universe CG M fuel entry r Hq) in Hf.
  apply elem_of_universe in Hf as [?|[F HF]]; [by left|].
  apply collect_indirectly_called_functions_spec in HF as (cs & Hcs & Hx).
  destruct Hx as [Hx|Hx].
  - left. unfold get_indirect_called_functions in Hx.
    destruct (getCalledFunction cs); [set_solver|].
    apply collect_function_types_spec in Hx as (fn & Hfn & _).
    apply elem_of_dom. eauto.
  - apply get_functions_from_arguments_index in Hx
      as [?|(fType & fn & _ & Hfn & _)].
    + right. by exists F, cs.
    + left. apply elem_of_dom. eauto.
Qed.

Lemma result_within_module_witness :
  5 ∈ dom callback_module
  ∨ ∃ F cs, call_site_of callback_module F cs
            ∧ FunctionRef 5 ∈ argOperands cs.
Proof.
  apply (result_within_module elements_order callback_callgraph
           callback_module 7 1 {[1; 2; 3; 4; 5]} 5).
  - reflexivity.
  - set_solver.
Defined.

Lemma process_working_list_origin
    (order : IterationOrder) (CG : CallGraph) (M : Module)
    fuel dfuel wl p r res :
  (∀ x, x ∈ wl → x ∈ r) →
  (∀ x, x ∈ r → isDeclaration M x = false) →
  process_working_list CG M fuel dfuel (collect_function_types M) wl p r
    = Some res →
  ∀ x, x ∈ res →
       isDeclaration M x = false
       ∨ ∃ F, F ∈ res
              ∧ x ∈ collect_indirectly_called_functions M F
                      (collect_function_types M).
Proof.
  intros Hwl Hr Hrun.
  set (P := fun s : FunctionSet =>
              ∀ x, x ∈ s →
                   isDeclaration M x = false
                   ∨ ∃ F, F ∈ s
                          ∧ x ∈ collect_indirectly_called_functions M F
                                  (collect_function_types M)).
  destruct (process_working_list_inv CG M
              (fun wl _ s => (∀ x, x ∈ wl → x ∈ s) ∧ P s)
              dfuel (collect_function_types M))
    with (fuel := fuel) (wl := wl) (p := p) (r := r) (res := res)
    as (_ & _ & ?); try done.
  - intros F rest p0 r0 [Hq Hs] _. split; [|done].
    intros x Hx. apply Hq. by right.
  - intros F rest p0 r0 w [Hq Hs] _ Hw.
    pose proof (inner_grows _ _ _ _ _ _ Hw) as [Hsub (new & Hl & _ & Hnew)].
    simpl in *. split.
    + intros x Hx. rewrite Hl in Hx.
      apply elem_of_app in Hx as [Hx|Hx]; [|by apply Hnew].
      apply Hsub, Hq. by right.
    + assert (F ∈ r0) as HF by (apply Hq; left).
      apply (inner_inv CG M (fun s => r0 ⊆ s ∧ P s) _ _ _ _ Hw); [done|].
      intros r' c rs [Hr0 Hr'] Hc%elem_of_iterate _ Hrs.
      split; [set_solver|]. intros x Hx.
      apply elem_of_union in Hx as [[Hx%elem_of_singleton|Hx]%elem_of_union|Hx].
      * subst x. right. exists F. split; [set_solver|done].
      * left. destruct (proj1 (Walk_defined CG M) _ _ _ Hrs x Hx);
          [set_solver|done].
      * destruct (Hr' x Hx) as [?|(F0 & HF0 & Hx0)]; [by left|].
        right. exists F0. split; [set_solver|done].
  - split; [done|]. intros x Hx. left. by apply Hr.
Qed.

(** X14.  A function without a body gets into the returned set in one way
    only: as an indirectly called function of a member of the set.  The
    walk over the call graph never inserts one. *)
Theorem declaration_origin
    (order : IterationOrder) (CG : CallGraph) (M : Module)
    (fuel : nat) (entry : Func) (r : FunctionSet) (f : Func) :
  getReachableFunctions CG M fuel entry = Some r →
  f ∈ r → isDeclaration M f = true →
  ∃ F, F ∈ r ∧ isDeclaration M F = false
       ∧ f ∈ collect_indirectly_called_functions M F
               (collect_function_types M).
Proof.
  intros Hq Hf Hd.
  destruct (getReachableFunctions_phases CG M fuel entry r Hq)
    as (d & Hwalk & Hloop).
  destruct (process_working_list_origin order CG M _ _ _ _ _ _
              ltac:(intros x; by rewrite elem_of_iterate)
              ltac:(intros x Hx;
                    destruct (proj1 (Walk_defined CG M) _ _ _ Hwalk x Hx);
                    [set_solver|done])
              Hloop f Hf) as [?|(F & HF & Hcalled)]; [congruence|].
  exists F. split; [done|]. split; [|done].
  destruct (isDeclaration M F) eqn:HdF; [|done].
  unfold collect_indirectly_called_functions, body in Hcalled.
  unfold isDeclaration in HdF. destruct (M !! F) as [fn|]; [|set_solver].
  apply bool_decide_eq_true in HdF. rewrite HdF in Hcalled. set_solver.
Qed.

Lemma declaration_origin_witness :
  ∃ F, F ∈ ({[1; 2; 3; 4; 5]} : FunctionSet)
       ∧ isDeclaration callback_module F = false
       ∧ 5 ∈ collect_indirectly_called_functions callback_module F
               (collect_function_types callback_module).
Proof.
  apply (declaration_origin elements_order callback_callgraph callback_module
           7 1 {[1; 2; 3; 4; 5]} 5).
  - reflexivity.
  - set_solver.
  - reflexivity.
Defined.

Lemma DReach_defined (CG : CallGraph) (M : Module) c f :
  DReach CG M c f → isDeclaration M f = false.
Proof. induction 1; done. Qed.

Lemma reachable_set_least_witness :
  ({[1; 2; 3; 4; 5]} : FunctionSet) ⊆ dom callback_module.
Proof.
  apply (reachable_set_least elements_order callback_callgraph
           callback_module 7 1).
  - reflexivity.
  - intros f Hf%DReach_defined. by apply isDeclaration_false_dom.
  - intros F c _ Hc%indirectly_called_universe. exact Hc.
  - intros c f _ Hf%DReach_defined. by apply isDeclaration_false_dom.
Defined.

(** X15.  Reachability is transitive: on the call graph of the module, the
    set returned for a function that is in the set returned for the entry
    is included in it. *)
Theorem reachable_from_member
    (order : IterationOrder) (CG : CallGraph) (M : Module)
    (fuel fuel' : nat) (entry g : Func) (r r' : FunctionSet) :
  callgraph_of_module CG M →
  getReachableFunctions CG M fuel entry = Some r →
  g ∈ r →
  getReachableFunctions CG M fuel' g = Some r' →
  r' ⊆ r.
Proof.
  intros Hcg Hq Hg Hq' f Hf.
  apply (getReachableFunctions_Reach CG M fuel entry r Hcg Hq) in Hg.
  apply (getReachableFunctions_Reach CG M fuel entry r Hcg Hq).
  apply (getReachableFunctions_sound CG M fuel' g r' Hq') in Hf.
  induction Hf as [f Hf|F c HF IH Hc|c f Hc IH Hf].
  - by eapply Reach_direct.
  - by eapply Reach_indirect.
  - by eapply Reach_direct.
Qed.

Lemma reachable_from_member_witness :
  callgraph_of_module sample_callgraph sample_module
  ∧ ({[1; 2; 3; 4]} : FunctionSet) ⊆ {[1; 2; 3; 4]}
  ∧ (∅ : FunctionSet) ⊆ {[1; 2; 3; 4]}.
Proof.
  split; [exact sample_callgraph_ok|]. split.
  - apply (reachable_from_member elements_order sample_callgraph
             sample_module 7 7 1 2).
    + exact sample_callgraph_ok.
    + reflexivity.
    + set_solver.
    + reflexivity.
  - apply (reachable_from_member elements_order sample_callgraph
             sample_module 7 7 1 4).
    + exact sample_callgraph_ok.
    + reflexivity.
    + set_solver.
    + reflexivity.
Defined.
